(** * AFS assessment wizard: selection, scoring and persistence helpers

    A shallow embedding of [static/src/js/create/helpers.js] and the
    properties its specification states about it.

    - JavaScript objects used as dictionaries ([selectionState.domains],
      [domSel.areas], [answersByArea]) are finite maps keyed by strings.
    - Functions that read or write objects reachable from their arguments
      are written in a small state monad whose store holds those objects.
    - JavaScript numbers are IEEE-754 binary64 values; the finite ones are
      represented by the rational they denote and every arithmetic
      operation rounds its exact result to the nearest double. *)

From Stdlib Require Import QArith Qround Qminmax Qabs Qpower Qcanon Lqa.
From Stdlib Require SpecFloat.
From stdpp Require Import gmap strings list fin_maps.

Set Default Proof Using "Type".

(** ** Data model *)

Module Question.
Record t := mk { text : string }.
End Question.

Module Area.
(** [questions] is read through [area.questions?.length], so it may be
    absent. *)
Record t := mk {
  id : string;
  name : string;
  questions : option (list Question.t)
}.
End Area.

Module Domain.
Record t := mk {
  id : string;
  name : string;
  areas : list Area.t
}.
End Domain.

Module Config.
Record t := mk { domains : list Domain.t }.
End Config.

Module DomSel.
Record t := mk {
  selected : bool;
  areas : gmap string bool
}.
End DomSel.

Module Selection.
Record t := mk { domains : gmap string DomSel.t }.
End Selection.

(** ** A state monad for code that works on mutable objects *)

Definition JS (S A : Type) : Type := S → A * S.

Global Instance JS_ret {S} : MRet (JS S) := λ A a s, (a, s).
Global Instance JS_bind {S} : MBind (JS S) :=
  λ A B f m s, let '(a, s') := m s in f a s'.

Definition gets {S A} (f : S → A) : JS S A := λ s, (f s, s).
Definition modify {S} (f : S → S) : JS S unit := λ s, (tt, f s).

(** [for (const x of xs) body], the loop's local variables carried in
    [acc]. *)
Fixpoint for_of {S A B} (xs : list A) (body : B → A → JS S B) (acc : B)
  : JS S B :=
  match xs with
  | [] => mret acc
  | x :: xs' => acc' ← body acc x; for_of xs' body acc'
  end.

(** ** Selection helpers *)

(** The value of [{ ...domain, areas: selectedAreas }]. *)
Definition with_areas (domain : Domain.t) (selectedAreas : list Area.t)
  : Domain.t :=
  {| Domain.id := Domain.id domain;
     Domain.name := Domain.name domain;
     Domain.areas := selectedAreas |}.

(** [domSel.areas[a.id]] is truthy exactly when the flag is present and
    [true]. *)
Definition area_flag (domSel : DomSel.t) (a : Area.t) : Prop :=
  DomSel.areas domSel !! Area.id a = Some true.

Global Instance area_flag_dec domSel a : Decision (area_flag domSel a).
Proof. unfold area_flag. apply _. Defined.

(** The store holds the two argument objects, [config] and
    [selectionState]. *)
Definition getSelectedDomains : JS (Config.t * Selection.t) (list Domain.t) :=
  config ← gets fst;
  for_of (Config.domains config)
    (λ selected domain,
       selectionState ← gets snd;
       match Selection.domains selectionState !! Domain.id domain with
       | None => mret selected
       | Some domSel =>
           let selectedAreas := filter (area_flag domSel) (Domain.areas domain) in
           if 0 <? length selectedAreas
           then mret (selected ++ [with_areas domain selectedAreas])
           else mret selected
       end)
    [].

(** [Object.values(dom.areas).filter(Boolean).length] *)
Definition areaCount (dom : DomSel.t) : nat :=
  length (filter (λ b : bool, b = true) (map_to_list (DomSel.areas dom)).*2).

Definition deselect (dom : DomSel.t) : DomSel.t :=
  {| DomSel.selected := false; DomSel.areas := DomSel.areas dom |}.

(** The store is the [selectionState] argument.  The keys are those
    enumerated by [for (const domId in selectionState.domains)]; each of
    them has an entry, so the [None] case of the lookup is not reached. *)
Definition validateSelection : JS Selection.t bool :=
  keys ← gets (λ st, (map_to_list (Selection.domains st)).*1);
  total ← for_of keys
    (λ total domId,
       odom ← gets (λ st, Selection.domains st !! domId);
       match odom with
       | None => mret total
       | Some dom =>
           _ ← (if DomSel.selected dom && (areaCount dom =? 0)
                then modify (λ st,
                       Selection.mk (<[domId := deselect dom]> (Selection.domains st)))
                else mret tt);
           mret (total + areaCount dom)
       end)
    0;
  mret (0 <? total).



(** ** JavaScript numbers *)

Module Double.
Local Open Scope Q_scope.

(** Exponent of the least subnormal, [2^-1074]. *)
Definition emin : Z := (-1074)%Z.

(** [floor (log2 x)] for a positive rational [x]. *)
Definition ilog2 (x : Q) : Z :=
  let d := (Z.log2 (Qnum x) - Z.log2 (Zpos (Qden x)))%Z in
  if Qle_bool (2 ^ d) x then d else (d - 1)%Z.

(** Exponent of the unit in the last place of the binade of [x]:
    53 significant bits, bounded below by the subnormal exponent. *)
Definition ulp_exp (x : Q) : Z := Z.max (ilog2 (Qabs x) - 52) emin.

(** Round to the nearest integer, ties to even. *)
Definition rne (x : Q) : Z :=
  let f := Qfloor x in
  match Qcompare (x - inject_Z f) (1 # 2) with
  | Lt => f
  | Gt => (f + 1)%Z
  | Eq => if Z.even f then f else (f + 1)%Z
  end.

(** The double nearest to [x] (round to nearest, ties to even).  The
    exponent is not bounded above: the program computes no value beyond
    the length of an array and five times such a length, far below
    [2^1024]. *)
Definition round (x : Q) : Q :=
  let q := ulp_exp x in
  Qred (inject_Z (rne (x / 2 ^ q)) * 2 ^ q).

Definition add (x y : Q) : Q := round (x + y).
Definition mul (x y : Q) : Q := round (x * y).
(** Every divisor in the program is a positive count. *)
Definition div (x y : Q) : Q := round (x / y).

(** An array length or loop counter as a number: an integer below
    [2^32], hence a double. *)
Definition of_nat (n : nat) : Q := inject_Z (Z.of_nat n).

(** [x.toFixed(2)]: the integer [n] with [n / 100] closest to [x], the
    larger one on a tie (applied to the magnitude, the sign kept).  The
    integer stands for the decimal string with two fraction digits. *)
Definition toFixed2 (x : Q) : Z :=
  if Qle_bool 0 x then Qfloor (x * 100 + (1 # 2))
  else (- Qfloor (- x * 100 + (1 # 2)))%Z.

(** Unary [+] on such a string: the double nearest to the decimal. *)
Definition of_decimal2 (n : Z) : Q := round (inject_Z n / 100).

(** Unit roundoff, [2^-53]: the relative error of one rounding of a
    normal number. *)
Definition eps : Q := 1 # 9007199254740992.
End Double.

(** ** Scoring *)

(** An entry of an answer array: [true], [false] or [null]. *)
Inductive Answer := Yes | No | Unanswered.

(** [Boolean(v)] on such an entry. *)
Definition Boolean (v : Answer) : bool :=
  match v with Yes => true | No | Unanswered => false end.

Definition calculateAreaScore (areaAnswers : list Answer) : Q :=
  let yesCount := length (List.filter Boolean areaAnswers) in
  let total := if length areaAnswers =? 0 then 1 else length areaAnswers in
  let normalized :=
    Qmax 0 (Qmin 1 (Double.div (Double.of_nat yesCount) (Double.of_nat total))) in
  Double.of_decimal2 (Double.toFixed2 (Double.mul normalized 5)).

(** [answersByArea[area.id] || []] *)
Definition answers_of (answersByArea : gmap string (list Answer)) (area : Area.t)
  : list Answer :=
  default [] (answersByArea !! Area.id area).

(** Truthiness of [area.questions?.length]. *)
Definition has_questions (area : Area.t) : bool :=
  match Area.questions area with
  | Some qs => negb (length qs =? 0)
  | None => false
  end.

Definition calculateDomainScore (domainAreas : list Area.t)
    (answersByArea : gmap string (list Answer)) : Q :=
  if length domainAreas =? 0 then 0%Q
  else
    let '(sum, count) :=
      fold_left
        (λ '(sum, count) area,
           let arr := answers_of answersByArea area in
           if (length arr =? 0) && has_questions area
           then (Double.add sum 0, count + 1)
           else (Double.add sum (calculateAreaScore arr), count + 1))
        domainAreas (0%Q, 0) in
    if count =? 0 then 0%Q
    else Double.of_decimal2 (Double.toFixed2 (Double.div sum (Double.of_nat count))).

Definition calculateOverallScore (selectedDomains : list Domain.t)
    (answersByArea : gmap string (list Answer)) : Q :=
  if length selectedDomains =? 0 then 0%Q
  else
    let '(sum, count) :=
      fold_left
        (λ '(sum, count) domain,
           (Double.add sum (calculateDomainScore (Domain.areas domain) answersByArea),
            count + 1))
        selectedDomains (0%Q, 0) in
    if count =? 0 then 0%Q
    else Double.of_decimal2 (Double.toFixed2 (Double.div sum (Double.of_nat count))).

(** ** Persistence *)

(** What the browser provides: [JSON.stringify], [JSON.parse] and the
    conditions under which [localStorage] raises.  [JSON_stringify]
    returns [inr None] for [undefined]; [inl] is a raised exception. *)
Class Platform (Value : Type) := {
  JSON_stringify : Value → unit + option string;
  JSON_parse : string → unit + Value;
  (** [setItem] raises (quota exceeded, storage disabled) *)
  write_fails : gmap string string → string → string → bool;
  (** [getItem] raises (storage disabled) *)
  read_fails : gmap string string → string → bool
}.

(** Computations on the storage area that may raise. *)
Definition Storage (A : Type) : Type :=
  gmap string string → (unit + A) * gmap string string.

Global Instance Storage_ret : MRet Storage := λ A a s, (inr a, s).
Global Instance Storage_bind : MBind Storage :=
  λ A B f m s,
    match m s with
    | (inr a, s') => f a s'
    | (inl e, s') => (inl e, s')
    end.

Definition lift_result {A} (r : unit + A) : Storage A := λ s, (r, s).

(** [try { body } catch { handler }] *)
Definition try_catch {A} (body handler : Storage A) : Storage A :=
  λ s, match body s with
       | (inr a, s') => (inr a, s')
       | (inl _, s') => handler s'
       end.

(** [localStorage.setItem(key, value)]; an [undefined] value is stored as
    the string it converts to. *)
Definition setItem `{Platform Value} (key : string) (value : option string)
  : Storage unit :=
  λ s, let v := default "undefined" value in
       if write_fails s key v then (inl tt, s) else (inr tt, <[key := v]> s).

(** [localStorage.getItem(key)]; [None] is [null]. *)
Definition getItem `{Platform Value} (key : string) : Storage (option string) :=
  λ s, if read_fails s key then (inl tt, s) else (inr (s !! key), s).

Definition saveLocal `{Platform Value} (key : string) (value : Value)
  : Storage unit :=
  try_catch
    (text ← lift_result (JSON_stringify value); setItem key text)
    (mret tt).

(** [v ? JSON.parse(v) : fallback]: [null] and the empty string are
    falsy, every other string is truthy. *)
Definition loadLocal `{Platform Value} (key : string) (fallback : Value)
  : Storage Value :=
  try_catch
    (v ← getItem key;
     match v with
     | Some (String _ _ as text) => lift_result (JSON_parse text)
     | Some EmptyString | None => mret fallback
     end)
    (mret fallback).

(** ** Reference definitions, in the words of the specification *)

(** The per-area selection flag of area [areaId] under domain [domId] is
    true. *)
Definition flag_is_true (st : Selection.t) (domId areaId : string) : Prop :=
  (Selection.domains st !! domId) ≫= (λ domSel, DomSel.areas domSel !! areaId)
  = Some true.

Global Instance flag_is_true_dec st domId areaId :
  Decision (flag_is_true st domId areaId).
Proof. unfold flag_is_true. apply _. Defined.

(** The subsequence of a domain's areas whose selection flag is true. *)
Definition selected_areas (st : Selection.t) (d : Domain.t) : list Area.t :=
  filter (λ a, flag_is_true st (Domain.id d) (Area.id a)) (Domain.areas d).

(** Domains in configuration order, each with its selected areas, those
    with no selected area left out. *)
Definition derive_selection (cfg : Config.t) (st : Selection.t) : list Domain.t :=
  omap (λ d, match selected_areas st d with
             | [] => None
             | areas => Some (with_areas d areas)
             end)
       (Config.domains cfg).

(** At least one area flag of the domain is true. *)
Definition any_area_selected (dom : DomSel.t) : Prop :=
  ∃ areaId, DomSel.areas dom !! areaId = Some true.

(** The repair of one domain entry: a selected domain with no selected
    area is deselected. *)
Definition repair (dom : DomSel.t) : DomSel.t :=
  if DomSel.selected dom && (areaCount dom =? 0) then deselect dom else dom.

(** Number of area flags set to true, summed over all domains. *)
Definition total_selected (st : Selection.t) : nat :=
  sum_list (areaCount <$> (map_to_list (Selection.domains st)).*2).




Global Instance Answer_eq_dec : EqDecision Answer.
Proof. solve_decision. Defined.

(** Number of entries strictly equal to [true]. *)
Definition count_yes (a : list Answer) : nat :=
  length (filter (λ v, v = Yes) a).

(** Rounding to two decimals, as the program does it. *)
Definition round2 (x : Q) : Q := Double.of_decimal2 (Double.toFixed2 x).

(** [5 * (count(a, true) / max(n, 1))] rounded to two decimals. *)
Definition area_score_spec (a : list Answer) : Q :=
  round2 (Double.mul 5 (Double.div (Double.of_nat (count_yes a))
                                   (Double.of_nat (Nat.max (length a) 1)))).

(** [5 * (count(a, true) / max(n, 1))] in exact rational arithmetic. *)
Definition exact_area_score (a : list Answer) : Q :=
  (5 * (Double.of_nat (count_yes a) / Double.of_nat (Nat.max (length a) 1)))%Q.

(** [x] lies exactly halfway between two consecutive multiples of 0.01. *)
Definition halfway (x : Q) : Prop :=
  (inject_Z (Qfloor (x * 100 + (1 # 2))) == x * 100 + (1 # 2))%Q.

(** Unweighted arithmetic mean of a list of terms, summed left to right,
    rounded to two decimals. *)
Definition rounded_mean (terms : list Q) : Q :=
  round2 (Double.div (fold_left Double.add terms 0%Q)
                     (Double.of_nat (length terms))).

(** The term an area contributes to its domain's score: 0 when it has no
    recorded answers and at least one question, its area score
    otherwise. *)
Definition area_term (answersByArea : gmap string (list Answer)) (area : Area.t)
  : Q :=
  match answersByArea !! Area.id area with
  | Some ((_ :: _) as answers) => calculateAreaScore answers
  | Some [] | None =>
      if has_questions area then 0%Q else calculateAreaScore []
  end.

(** A value is JSON-serializable when [JSON.stringify] turns it into a
    JSON text (which is never empty) that [JSON.parse] reads back as the
    same value. *)
Definition serializable `{Platform Value} (v : Value) (text : string) : Prop :=
  JSON_stringify v = inr (Some text) ∧ text ≠ EmptyString ∧
  JSON_parse text = inr v.

(** The rational denoted by a finite [spec_float]. *)
Definition SF2Q (f : SpecFloat.spec_float) : Q :=
  match f with
  | SpecFloat.S754_finite s m e =>
      Qred ((if s then -1 else 1) * inject_Z (Zpos m) * 2 ^ e)%Q
  | _ => 0%Q
  end.

Definition Z2SF (k : Z) : SpecFloat.spec_float :=
  match k with
  | Z0 => SpecFloat.S754_zero false
  | Zpos p => SpecFloat.S754_finite false p 0
  | Zneg p => SpecFloat.S754_finite true p 0
  end.

(** Division of two integers in binary64, as the Standard Library's
    reference implementation of IEEE-754 computes it. *)
Definition binary64_div (k n : Z) : SpecFloat.spec_float :=
  SpecFloat.SFdiv 53 1024 (Z2SF k) (Z2SF n).

(** [Double] against [SpecFloat] on the operations of the area score:
    the quotient [k / n], its product by five and a sum, for all counts
    [k <= n] with [1 <= n <= bound]. *)
Definition agrees_upto (bound : nat) : bool :=
  forallb (λ n : nat,
    forallb (λ k : nat,
      let q := binary64_div (Z.of_nat k) (Z.of_nat n) in
      let p := SpecFloat.SFmul 53 1024 q (Z2SF 5) in
      let s := SpecFloat.SFadd 53 1024 p q in
      Qeq_bool (SF2Q q) (Double.div (Double.of_nat k) (Double.of_nat n)) &&
      Qeq_bool (SF2Q p) (Double.mul (SF2Q q) 5) &&
      Qeq_bool (SF2Q s) (Double.add (SF2Q p) (SF2Q q)))
      (seq 0 (S n)))
    (seq 1 bound).

(** [Double.of_decimal2] against [SpecFloat] on every score with two
    decimals between 0.00 and 5.00. *)
Definition decimals_agree : bool :=
  forallb (λ d : nat,
    Qeq_bool (SF2Q (binary64_div (Z.of_nat d) 100))
             (Double.of_decimal2 (Z.of_nat d)))
    (seq 0 501).

(** ** Sample inputs *)

Module Sample.
Definition q (n : string) : Question.t := Question.mk n.

Definition areaA : Area.t := Area.mk "A" "Area A" (Some [q "a1"; q "a2"]).
Definition areaB : Area.t :=
  Area.mk "B" "Area B" (Some [q "b1"; q "b2"; q "b3"]).
Definition areaC : Area.t := Area.mk "C" "Area C" (Some [q "c1"]).

Definition dom1 : Domain.t := Domain.mk "d1" "Domain 1" [areaA; areaB].
Definition dom2 : Domain.t := Domain.mk "d2" "Domain 2" [areaC].

Definition config : Config.t := Config.mk [dom1; dom2].




Definition answers : gmap string (list Answer) :=
  {[ "A" := [Yes; Yes]; "C" := [Yes] ]}.

(** A browser whose values are the booleans and whose storage never
    fails. *)
Definition parse_bool (text : string) : unit + bool :=
  if String.eqb text "true" then inr true
  else if String.eqb text "false" then inr false
  else inl tt.

Definition booleans : Platform bool :=
  {| JSON_stringify := λ b : bool, inr (Some (if b then "true" else "false"));
     JSON_parse := parse_bool;
     write_fails := λ _ _ _, false;
     read_fails := λ _ _, false |}.

(** The same browser with its storage quota exhausted. *)
Definition full : Platform bool :=
  {| JSON_stringify := λ b : bool, inr (Some (if b then "true" else "false"));
     JSON_parse := parse_bool;
     write_fails := λ _ _ _, true;
     read_fails := λ _ _, false |}.
End Sample.

(** ** Editing the selection (create.js) *)

(** The change handler of a domain checkbox: the domain's flag and every
    area flag it holds take the state of the checkbox.  [None] is the
    [TypeError] raised, before any write, when the domain has no entry. *)
Definition onDomainChange (domId : string) (checked : bool) (st : Selection.t)
  : option Selection.t :=
  domSel ← Selection.domains st !! domId;
  let areas :=
    fold_left (λ areas a, <[a := checked]> areas)
              (map_to_list (DomSel.areas domSel)).*1 (DomSel.areas domSel) in
  Some (Selection.mk (<[domId := DomSel.mk checked areas]> (Selection.domains st))).

(** The earlier version of that handler: unticking keeps the area flags,
    [domSel.areas[a] = checked ? true : domSel.areas[a]]. *)
Definition legacy_onDomainChange (domId : string) (checked : bool)
    (st : Selection.t) : option Selection.t :=
  domSel ← Selection.domains st !! domId;
  let areas :=
    fold_left (λ areas a, alter (λ flag, if checked then true else flag) a areas)
              (map_to_list (DomSel.areas domSel)).*1 (DomSel.areas domSel) in
  Some (Selection.mk (<[domId := DomSel.mk checked areas]> (Selection.domains st))).

(** The change handler of an area checkbox: the flag is written, then the
    domain's flag becomes [Object.values(domSel.areas).some(Boolean)]. *)
Definition onAreaChange (domId areaId : string) (checked : bool)
    (st : Selection.t) : option Selection.t :=
  domSel ← Selection.domains st !! domId;
  let areas := <[areaId := checked]> (DomSel.areas domSel) in
  let anyAreaSelected := existsb (λ flag : bool, flag) (map_to_list areas).*2 in
  Some (Selection.mk
          (<[domId := DomSel.mk anyAreaSelected areas]> (Selection.domains st))).

(** The earlier version of that handler, which counts the true flags:
    [domSel.selected = areaCount > 0]. *)
Definition legacy_onAreaChange (domId areaId : string) (checked : bool)
    (st : Selection.t) : option Selection.t :=
  domSel ← Selection.domains st !! domId;
  let areas := <[areaId := checked]> (DomSel.areas domSel) in
  let count := areaCount (DomSel.mk (DomSel.selected domSel) areas) in
  Some (Selection.mk
          (<[domId := DomSel.mk (0 <? count) areas]> (Selection.domains st))).



(** ** Counters *)

(** [area.questions.length]; [None] is the [TypeError] on a missing
    [questions]. *)
Definition questions_length (area : Area.t) : option nat :=
  length <$> Area.questions area.




(** [v === true || v === false] *)
Definition answered (v : Answer) : bool :=
  match v with Yes | No => true | Unanswered => false end.

Definition countAnswered (answersByArea : gmap string (list Answer)) : nat :=
  fold_left (λ a arr, a + length (List.filter answered arr))
            (map_to_list answersByArea).*2 0.

(** ** The question runner *)

(** Code that works on a mutable object and may raise: the store is kept
    when an exception is raised. *)
Definition Eff (S A : Type) : Type := S → (unit + A) * S.

Global Instance Eff_ret {S} : MRet (Eff S) := λ A a s, (inr a, s).
Global Instance Eff_bind {S} : MBind (Eff S) :=
  λ A B f m s,
    match m s with
    | (inr a, s') => f a s'
    | (inl e, s') => (inl e, s')
    end.

Definition raise {S A} : Eff S A := λ s, (inl tt, s).
Definition read {S A} (f : S → A) : Eff S A := λ s, (inr (f s), s).
Definition write {S} (f : S → S) : Eff S unit := λ s, (inr tt, f s).

(** [xs.forEach(body)] *)
Fixpoint for_each {S A} (xs : list A) (body : A → Eff S unit) : Eff S unit :=
  match xs with
  | [] => mret tt
  | x :: xs' => _ ← body x; for_each xs' body
  end.

(** The part of [renderRunner] that works on [answersByArea].  For each
    area of the selected domains: an area met for the first time gets an
    array of one [null] per question; [area.questions.map] then reads the
    questions of the area. *)
Definition initArea (area : Area.t) : Eff (gmap string (list Answer)) unit :=
  let areaKey := Area.id area in
  present ← read (λ answersByArea, answersByArea !! areaKey);
  _ ← match present with
      | Some _ => mret tt
      | None =>
          match questions_length area with
          | Some n => write (insert areaKey (replicate n Unanswered))
          | None => raise
          end
      end;
  match Area.questions area with
  | Some _ => mret tt
  | None => raise
  end.

Definition initAnswers (selectedDomains : list Domain.t)
  : Eff (gmap string (list Answer)) unit :=
  for_each selectedDomains
    (λ domain, for_each (Domain.areas domain) initArea).

(** [arr[idx] = v]: an index beyond the end extends the array; the holes
    left in between read as [undefined], which every reader of an answer
    array treats as it treats [null]. *)
Definition set_index (arr : list Answer) (idx : nat) (v : Answer) : list Answer :=
  if idx <? length arr then <[idx := v]> arr
  else arr ++ replicate (idx - length arr) Unanswered ++ [v].

(** The click handler of an answer button:
    [answersByArea[areaId][idx] = val].  [None] is the [TypeError] raised
    when the area has no array. *)
Definition recordAnswer (areaId : string) (idx : nat) (val : bool)
    (answersByArea : gmap string (list Answer))
  : option (gmap string (list Answer)) :=
  arr ← answersByArea !! areaId;
  Some (<[areaId := set_index arr idx (if val then Yes else No)]> answersByArea).

(** ** The report *)

(** [Math.round(x)]: the nearest integer, the larger one on a tie. *)
Definition Math_round (x : Q) : Z := Qfloor (x + (1 # 2)).

(** [Math.round((aScore / 5) * 100)] *)
Definition scorePercent (aScore : Q) : Z :=
  Math_round (Double.mul (Double.div aScore 5) 100).

Inductive BarColor := Green | Yellow | Red.

(** [pct >= 70 ? '#198754' : pct >= 40 ? '#ffc107' : '#dc3545'] *)
Definition barColor (pct : Z) : BarColor :=
  if (70 <=? pct)%Z then Green else if (40 <=? pct)%Z then Yellow else Red.

(** ** The submission payload *)



(** ** Reference definitions for the properties of the callers *)

(** In every domain entry the [selected] flag is true exactly when an
    area flag is true. *)
Definition selection_consistent (st : Selection.t) : Prop :=
  ∀ domId dom, Selection.domains st !! domId = Some dom →
    (DomSel.selected dom = true ↔ any_area_selected dom).





(** [ans'] keeps every entry of [ans] and gives some areas without entry
    an array that satisfies [P]. *)
Definition extends_with (P : string → list Answer → Prop)
    (ans ans' : gmap string (list Answer)) : Prop :=
  ∀ k, ans' !! k = ans !! k ∨
       (ans !! k = None ∧ ∃ arr, ans' !! k = Some arr ∧ P k arr).

(** [arr] is the array of [null]s, one per question, of an area with id
    [k] of the selected domains. *)
Definition blank_for (selectedDomains : list Domain.t) (k : string)
    (arr : list Answer) : Prop :=
  ∃ d a qs, d ∈ selectedDomains ∧ a ∈ Domain.areas d ∧ Area.id a = k ∧
            Area.questions a = Some qs ∧ arr = replicate (length qs) Unanswered.

(** The percentage of every score with two decimals between 0.00 and
    5.00 is its number of hundredths divided by five, rounded half up. *)
Definition percent_check : bool :=
  forallb (λ d : nat,
             (scorePercent (Double.of_decimal2 (Z.of_nat d))
              =? (2 * Z.of_nat d + 5) / 10)%Z)
          (seq 0 501).

(** ** Sample inputs for the callers *)

Module Visit.
(** Both areas of domain 1 are ticked, domain 2 is unticked. *)
Definition first_domain : Selection.t :=
  Selection.mk {[ "d1" := DomSel.mk true {[ "A" := true; "B" := true ]};
                  "d2" := DomSel.mk false {[ "C" := false ]} ]}.

(** Answers recorded for area A only, the second one still open. *)
Definition started : gmap string (list Answer) :=
  {[ "A" := [Yes; Unanswered] ]}.

End Visit.

(** * Properties *)

(** ** Selection derivation *)

Section selection_derivation.
Implicit Types (cfg : Config.t) (st : Selection.t) (d : Domain.t).

Lemma selected_areas_lookup st d :
  selected_areas st d =
  match Selection.domains st !! Domain.id d with
  | Some domSel => filter (area_flag domSel) (Domain.areas d)
  | None => []
  end.
Proof.
  unfold selected_areas.
  destruct (Selection.domains st !! Domain.id d) as [domSel|] eqn:E.
  - apply list_filter_iff. intros a.
    unfold flag_is_true, area_flag. by rewrite E.
  - induction (Domain.areas d) as [|a l IH]; [done|].
    rewrite filter_cons_False; [done|].
    unfold flag_is_true. by rewrite E.
Qed.

Lemma getSelectedDomains_loop cfg st ds acc :
  for_of ds
    (λ selected domain,
       selectionState ← gets snd;
       match Selection.domains selectionState !! Domain.id domain with
       | None => mret selected
       | Some domSel =>
           let selectedAreas := filter (area_flag domSel) (Domain.areas domain) in
           if 0 <? length selectedAreas
           then mret (selected ++ [with_areas domain selectedAreas])
           else mret selected
       end)
    acc (cfg, st)
  = (acc ++ derive_selection (Config.mk ds) st, (cfg, st)).
Proof.
  revert acc. induction ds as [|d ds IH]; intros acc; simpl.
  - by rewrite app_nil_r.
  - unfold mbind, JS_bind, gets at 1; simpl.
    unfold derive_selection; simpl.
    rewrite (selected_areas_lookup st d).
    destruct (Selection.domains st !! Domain.id d) as [domSel|]; simpl.
    + destruct (filter (area_flag domSel) (Domain.areas d)) as [|a l] eqn:E; simpl.
      * apply IH.
      * unfold mret, JS_ret. rewrite IH. by rewrite <- app_assoc.
    + apply IH.
Qed.

Lemma getSelectedDomains_spec cfg st :
  getSelectedDomains (cfg, st) = (derive_selection cfg st, (cfg, st)).
Proof.
  unfold getSelectedDomains, mbind, JS_bind, gets at 1; simpl.
  rewrite getSelectedDomains_loop. by destruct cfg.
Qed.


Lemma derive_selection_flags_only cfg st st' :
  (∀ domId, DomSel.areas <$> Selection.domains st !! domId
            = DomSel.areas <$> Selection.domains st' !! domId) →
  derive_selection cfg st = derive_selection cfg st'.
Proof.
  intros Hflags. unfold derive_selection.
  apply list_omap_ext, Forall2_same_length_lookup_2; [done|].
  intros i d d' Hd Hd'. assert (d' = d) as -> by congruence.
  assert (Hsel : selected_areas st d = selected_areas st' d); [|by rewrite Hsel].
  apply list_filter_iff. intros a. unfold flag_is_true.
  specialize (Hflags (Domain.id d)).
  destruct (Selection.domains st !! Domain.id d) as [ds|],
           (Selection.domains st' !! Domain.id d) as [ds'|];
    simpl in *; try done.
  by injection Hflags as ->.
Qed.





End selection_derivation.

(** ** Selection validation and repair *)

Section validation.
Implicit Types (st : Selection.t) (dom : DomSel.t) (m : gmap string DomSel.t).

Lemma areaCount_pos dom : 0 < areaCount dom ↔ any_area_selected dom.
Proof.
  unfold areaCount, any_area_selected. split.
  - intros Hlen.
    destruct (filter (λ b : bool, b = true) (map_to_list (DomSel.areas dom)).*2)
      as [|b l] eqn:E; [simpl in Hlen; lia|].
    assert (Hb : b ∈ filter (λ b : bool, b = true) (map_to_list (DomSel.areas dom)).*2)
      by (rewrite E; left).
    apply list_elem_of_filter in Hb as [-> Hb].
    apply list_elem_of_fmap in Hb as ([a b] & Heq & Hin); simpl in Heq; subst b.
    exists a. by apply elem_of_map_to_list.
  - intros [a Ha]. apply elem_of_map_to_list in Ha.
    assert (Hb : true ∈ filter (λ b : bool, b = true) (map_to_list (DomSel.areas dom)).*2).
    { apply list_elem_of_filter. split; [done|].
      apply list_elem_of_fmap. by exists (a, true). }
    destruct (filter _ _); [by apply elem_of_nil in Hb | simpl; lia].
Qed.

Lemma areaCount_repair dom : areaCount (repair dom) = areaCount dom.
Proof. unfold repair. by destruct (_ && _). Qed.

Lemma repair_idemp dom : repair (repair dom) = repair dom.
Proof.
  unfold repair at 1. rewrite areaCount_repair.
  unfold repair. destruct (DomSel.selected dom && _) eqn:E; simpl; [done|].
  by rewrite E.
Qed.

Lemma repair_selected dom :
  DomSel.selected (repair dom) = true → any_area_selected (repair dom).
Proof.
  intros Hsel. apply areaCount_pos. rewrite areaCount_repair.
  unfold repair in Hsel.
  destruct (DomSel.selected dom) eqn:Es, (areaCount dom) eqn:Ec;
    simpl in Hsel; try congruence; lia.
Qed.

Lemma repair_areas dom : DomSel.areas (repair dom) = DomSel.areas dom.
Proof. unfold repair. by destruct (_ && _). Qed.

(** The body of the loop of [validateSelection]. *)
Local Abbreviation validate_body :=
    (λ total domId,
       odom ← gets (λ st, Selection.domains st !! domId);
       match odom with
       | None => mret total
       | Some dom =>
           _ ← (if DomSel.selected dom && (areaCount dom =? 0)
                then modify (λ st,
                       Selection.mk (<[domId := deselect dom]> (Selection.domains st)))
                else mret tt);
           mret (total + areaCount dom)
       end).

(** The loop over any list of distinct entries of the store. *)
Lemma validateSelection_loop (kvs : list (string * DomSel.t)) m total :
  NoDup kvs.*1 →
  (∀ k v, (k, v) ∈ kvs → m !! k = Some v) →
  for_of kvs.*1 validate_body total (Selection.mk m)
  = (total + sum_list (areaCount <$> kvs.*2),
     Selection.mk (list_to_map (prod_map id repair <$> kvs) ∪ m)).
Proof.
  revert m total. induction kvs as [|[k v] kvs IH]; intros m total Hnd Hin.
  - simpl. unfold mret, JS_ret. by rewrite Nat.add_0_r, (left_id_L ∅ (∪)).
  - rewrite fmap_cons in Hnd. apply NoDup_cons in Hnd as [Hk Hnd].
    rewrite !fmap_cons. cbn [for_of fst snd].
    unfold mbind at 1, JS_bind at 1, mbind at 1, JS_bind at 1, gets at 1.
    cbn [Selection.domains].
    rewrite (Hin k v) by left.
    assert (Hstep :
      (if DomSel.selected v && (areaCount v =? 0)
       then modify (λ st, Selection.mk (<[k := deselect v]> (Selection.domains st)))
       else mret tt) (Selection.mk m)
      = (tt, Selection.mk (<[k := repair v]> m))).
    { unfold repair. destruct (_ && _); [done|].
      unfold mret, JS_ret. rewrite insert_id; [done|]. apply Hin; left. }
    unfold mbind at 1, JS_bind at 1.
    rewrite Hstep. unfold mret at 1, JS_ret at 1.
    rewrite IH; [|done|].
    + f_equal; [cbn [sum_list sum_list_with]; unfold id; lia|]. f_equal.
      rewrite <- insert_union_r, insert_union_l; [done|].
      apply not_elem_of_list_to_map_1.
      rewrite <- list_fmap_compose.
      by rewrite (list_fmap_ext (fst ∘ prod_map id repair) fst kvs)
        by (by intros ? [] ?).
    + intros k' v' Hin'. rewrite lookup_insert_ne.
      * apply Hin. by right.
      * intros ->. apply Hk. apply list_elem_of_fmap. by exists (k', v').
Qed.

Lemma validateSelection_spec st :
  validateSelection st =
  (0 <? total_selected st, Selection.mk (repair <$> Selection.domains st)).
Proof.
  destruct st as [m].
  unfold validateSelection, mbind, JS_bind, gets at 1; simpl.
  rewrite validateSelection_loop.
  - unfold mret, JS_ret, total_selected; simpl. f_equal. f_equal.
    rewrite list_to_map_fmap, list_to_map_to_list.
    apply map_eq; intros k. rewrite lookup_union, lookup_fmap.
    by destruct (m !! k).
  - apply NoDup_fst_map_to_list.
  - intros k v. apply elem_of_map_to_list.
Qed.

(** The order in which [for ... in] visits the keys does not matter: the
    loop ends with the same count and the same store for every
    enumeration of the entries. *)
Lemma validateSelection_any_order m (kvs : list (string * DomSel.t)) :
  kvs ≡ₚ map_to_list m →
  for_of kvs.*1 validate_body 0 (Selection.mk m)
  = (total_selected (Selection.mk m), Selection.mk (repair <$> m)).
Proof.
  intros Hperm. rewrite validateSelection_loop.
  - unfold total_selected; cbn [Selection.domains]. f_equal.
    + rewrite Nat.add_0_l. by rewrite Hperm.
    + f_equal.
      rewrite (list_to_map_proper _ (prod_map id repair <$> map_to_list m)).
      * rewrite list_to_map_fmap, list_to_map_to_list.
        apply map_eq; intros k. rewrite lookup_union, lookup_fmap.
        by destruct (m !! k).
      * rewrite <- list_fmap_compose.
        rewrite (list_fmap_ext (fst ∘ prod_map id repair) fst kvs)
          by (by intros ? [] ?).
        rewrite Hperm. apply NoDup_fst_map_to_list.
      * by rewrite Hperm.
  - rewrite Hperm. apply NoDup_fst_map_to_list.
  - intros k v Hin. apply elem_of_map_to_list. by rewrite <- Hperm.
Qed.

Lemma total_selected_repair m :
  total_selected (Selection.mk (repair <$> m)) = total_selected (Selection.mk m).
Proof.
  unfold total_selected; simpl. rewrite map_to_list_fmap.
  rewrite <- !list_fmap_compose. f_equal.
  apply list_fmap_ext. intros _ [k v] _; simpl. apply areaCount_repair.
Qed.

Lemma sum_list_pos (l : list nat) : 0 < sum_list l ↔ ∃ n, n ∈ l ∧ 0 < n.
Proof.
  induction l as [|x l IH].
  - split; [simpl; lia|]. intros (n & Hn & _). by apply elem_of_nil in Hn.
  - change (sum_list (x :: l)) with (x + sum_list l). split.
    + intros Hpos. destruct (decide (0 < x)) as [Hx|Hx].
      * exists x. split; [left | done].
      * assert (Hl : 0 < sum_list l) by lia.
        apply IH in Hl as (n & Hn & Hpos').
        exists n. split; [by right | done].
    + intros (n & Hn & Hpos). apply elem_of_cons in Hn as [->|Hn]; [lia|].
      assert (0 < sum_list l) by (apply IH; eauto). lia.
Qed.

Lemma total_selected_pos st :
  0 < total_selected st ↔
  ∃ domId dom, Selection.domains st !! domId = Some dom ∧ any_area_selected dom.
Proof.
  unfold total_selected. rewrite sum_list_pos. split.
  - intros (n & Hn & Hpos).
    apply list_elem_of_fmap in Hn as (dom & -> & Hdom).
    apply list_elem_of_fmap in Hdom as ([k dom'] & -> & Hin).
    exists k, dom'. split; [by apply elem_of_map_to_list | by apply areaCount_pos].
  - intros (k & dom & Hlook & Hany). exists (areaCount dom). split.
    + apply list_elem_of_fmap. exists dom. split; [done|].
      apply list_elem_of_fmap. exists (k, dom). split; [done|].
      by apply elem_of_map_to_list.
    + by apply areaCount_pos.
Qed.



(** C6: [validateSelection] returns [true] exactly when the number of
    area flags set to true, summed over all domains of the state, is
    positive, that is when some domain has a true area flag.  It is a
    total function: an empty selection is reported through the boolean
    result only. *)
Theorem validateSelection_result st :
  ((validateSelection st).1 = true ↔ 0 < total_selected st) ∧
  (0 < total_selected st ↔
   ∃ domId dom, Selection.domains st !! domId = Some dom ∧ any_area_selected dom).
Proof.
  split; [|apply total_selected_pos].
  rewrite validateSelection_spec; cbn [fst]. apply Nat.ltb_lt.
Qed.

(** C7: a second run of [validateSelection], on the state repaired by
    the first, returns the same boolean and leaves that state as it
    is. *)
Theorem validateSelection_idempotent st :
  validateSelection (validateSelection st).2 = validateSelection st.
Proof.
  rewrite !validateSelection_spec; cbn [snd Selection.domains].
  destruct st as [m]; cbn [Selection.domains].
  rewrite total_selected_repair. do 2 f_equal.
  rewrite <- map_fmap_compose. apply map_fmap_ext.
  intros k dom _. apply repair_idemp.
Qed.

End validation.

(** ** Default selection *)

Section default_selection.
Implicit Types (d : Domain.t) (m : gmap string DomSel.t) (flags : gmap string bool).











End default_selection.

(** ** Double arithmetic *)

Module DoubleFacts.
Import Double.
Local Open Scope Q_scope.

Lemma pow2_pos (z : Z) : 0 < 2 ^ z.
Proof. apply Qpower_0_lt. reflexivity. Qed.

Lemma pow2_le (n m : Z) : (n <= m)%Z -> 2 ^ n <= 2 ^ m.
Proof. intros H. apply Qpower_le_compat_l; [exact H | discriminate]. Qed.

Lemma pow2_plus (n m : Z) : 2 ^ (n + m) == 2 ^ n * 2 ^ m.
Proof. apply Qpower_plus. discriminate. Qed.

Lemma pow2_inject (n : Z) : (0 <= n)%Z -> inject_Z (2 ^ n) == 2 ^ n.
Proof. intros H. exact (Zpower_Qpower 2 n H). Qed.

Lemma Qmake_mult_den (a : Z) (b : positive) : (a # b) * inject_Z (Zpos b) == inject_Z a.
Proof. unfold Qeq, Qmult, inject_Z; simpl. lia. Qed.

Lemma ilog2_spec (x : Q) :
  0 < x -> 2 ^ ilog2 x <= x /\ x < 2 ^ (ilog2 x + 1).
Proof.
  intros Hx. destruct x as [a b].
  assert (Ha : (0 < a)%Z) by (unfold Qlt in Hx; simpl in Hx; lia).
  pose proof (Z.log2_spec a Ha) as [Hal Hau].
  pose proof (Z.log2_spec (Zpos b) (Pos2Z.is_pos b)) as [Hbl Hbu].
  pose proof (Z.log2_nonneg a) as Hla.
  pose proof (Z.log2_nonneg (Zpos b)) as Hlb.
  set (la := Z.log2 a) in *. set (lb := Z.log2 (Zpos b)) in *.
  assert (Hlow : 2 ^ (la - lb - 1) < a # b).
  { apply Qmult_lt_r with (z := 2 ^ (lb + 1)); [apply pow2_pos|].
    rewrite <- pow2_plus. replace (la - lb - 1 + (lb + 1))%Z with la by lia.
    apply Qle_lt_trans with (y := inject_Z a).
    - rewrite <- pow2_inject by lia. rewrite <- Zle_Qle. exact Hal.
    - rewrite <- (Qmake_mult_den a b).
      apply Qmult_lt_l; [exact Hx|].
      rewrite <- pow2_inject by lia. rewrite <- Zlt_Qlt.
      replace (lb + 1)%Z with (Z.succ lb) by lia. exact Hbu. }
  assert (Hup : a # b < 2 ^ (la - lb + 1)).
  { apply Qmult_lt_r with (z := 2 ^ lb); [apply pow2_pos|].
    rewrite <- pow2_plus. replace (la - lb + 1 + lb)%Z with (la + 1)%Z by lia.
    apply Qle_lt_trans with (y := inject_Z a).
    - rewrite <- (Qmake_mult_den a b).
      apply Qmult_le_l; [exact Hx|].
      rewrite <- pow2_inject by lia. rewrite <- Zle_Qle. exact Hbl.
    - rewrite <- pow2_inject by lia. rewrite <- Zlt_Qlt.
      replace (la + 1)%Z with (Z.succ la) by lia. exact Hau. }
  unfold ilog2. cbn [Qnum Qden]. fold la lb.
  destruct (Qle_bool (2 ^ (la - lb)) (a # b)) eqn:E.
  - apply Qle_bool_iff in E. split; [exact E | exact Hup].
  - split.
    + apply Qlt_le_weak. exact Hlow.
    + replace (la - lb - 1 + 1)%Z with (la - lb)%Z by lia.
      apply Qnot_le_lt. intros Hle. apply Qle_bool_iff in Hle. congruence.
Qed.

Lemma ilog2_mono (x y : Q) : 0 < x -> x <= y -> (ilog2 x <= ilog2 y)%Z.
Proof.
  intros Hx Hxy.
  assert (Hy : 0 < y) by (eapply Qlt_le_trans; eauto).
  destruct (ilog2_spec x Hx) as [Hxl _].
  destruct (ilog2_spec y Hy) as [_ Hyu].
  destruct (Z_le_gt_dec (ilog2 x) (ilog2 y)) as [H|H]; [exact H|].
  exfalso. apply (Qlt_irrefl y).
  apply Qlt_le_trans with (y := 2 ^ (ilog2 y + 1)); [exact Hyu|].
  apply Qle_trans with (y := 2 ^ ilog2 x); [apply pow2_le; lia|].
  apply Qle_trans with (y := x); assumption.
Qed.

Lemma rne_bounds (x : Q) : (Qfloor x <= rne x <= Qfloor x + 1)%Z.
Proof.
  unfold rne. destruct (Qcompare _ _); [destruct (Z.even _)| |]; lia.
Qed.

Lemma rne_mono (x y : Q) : x <= y -> (rne x <= rne y)%Z.
Proof.
  intros Hxy. pose proof (Qfloor_resp_le x y Hxy) as Hf.
  destruct (Z.eq_dec (Qfloor x) (Qfloor y)) as [Heq|Hne].
  - unfold rne. rewrite <- Heq.
    destruct (Qcompare_spec (x - inject_Z (Qfloor x)) (1 # 2)) as [Hx|Hx|Hx];
    destruct (Qcompare_spec (y - inject_Z (Qfloor x)) (1 # 2)) as [Hy|Hy|Hy];
      try (destruct (Z.even (Qfloor x))); try lia; exfalso; lra.
  - pose proof (rne_bounds x). pose proof (rne_bounds y). lia.
Qed.

Lemma rne_Z (n : Z) : rne (inject_Z n) = n.
Proof.
  unfold rne. rewrite Qfloor_Z.
  destruct (Qcompare_spec (inject_Z n - inject_Z n) (1 # 2)) as [H|H|H];
    [exfalso; lra | reflexivity | exfalso; lra].
Qed.

Lemma round_correct (x : Q) :
  round x == inject_Z (rne (x / 2 ^ ulp_exp x)) * 2 ^ ulp_exp x.
Proof. unfold round. apply Qred_correct. Qed.

Lemma round_canon (x : Q) : Qred (round x) = round x.
Proof. unfold round. apply Qred_involutive. Qed.

Lemma canon_eq (x y : Q) : Qred x = x -> Qred y = y -> x == y -> x = y.
Proof. intros Hx Hy H. rewrite <- Hx, <- Hy. apply Qred_complete. exact H. Qed.

Lemma div_pow2_le (x y : Q) (q : Z) : x <= y -> x / 2 ^ q <= y / 2 ^ q.
Proof.
  intros H. apply Qmult_le_compat_r; [exact H|].
  apply Qlt_le_weak, Qinv_lt_0_compat, pow2_pos.
Qed.

Lemma round_nonneg (x : Q) : 0 <= x -> 0 <= round x.
Proof.
  intros Hx. rewrite round_correct.
  apply Qmult_le_0_compat; [|apply Qlt_le_weak, pow2_pos].
  change 0 with (inject_Z 0). rewrite <- Zle_Qle.
  rewrite <- (rne_Z 0). apply rne_mono.
  apply Qle_shift_div_l; [apply pow2_pos|]. change (inject_Z 0) with 0. lra.
Qed.

Lemma Qabs_pos_eq (x : Q) : 0 <= x -> Qabs x = x.
Proof.
  destruct x as [a b]. unfold Qle; simpl. intros H.
  rewrite Z.abs_eq by lia. reflexivity.
Qed.

Lemma ulp_exp_mono (x y : Q) : 0 < x -> x <= y -> (ulp_exp x <= ulp_exp y)%Z.
Proof.
  intros Hx Hxy. unfold ulp_exp.
  rewrite !Qabs_pos_eq by lra.
  pose proof (ilog2_mono x y Hx Hxy). lia.
Qed.

Lemma round_mono_pos (x y : Q) : 0 < x -> x <= y -> round x <= round y.
Proof.
  intros Hx Hxy. assert (Hy : 0 < y) by lra.
  rewrite (round_correct x), (round_correct y).
  pose proof (ulp_exp_mono x y Hx Hxy) as Hq.
  destruct (Z.eq_dec (ulp_exp x) (ulp_exp y)) as [Heq|Hne].
  - rewrite Heq. apply Qmult_le_compat_r; [|apply Qlt_le_weak, pow2_pos].
    rewrite <- Zle_Qle. apply rne_mono, div_pow2_le, Hxy.
  - assert (Hlt : (ulp_exp x < ulp_exp y)%Z) by lia.
    apply Qle_trans with (y := 2 ^ (ulp_exp y + 52)).
    + (* round x <= 2^(qx+53) <= 2^(qy+52) *)
      apply Qle_trans with (y := 2 ^ (53 + ulp_exp x)); [|apply pow2_le; lia].
      rewrite pow2_plus.
      apply Qmult_le_compat_r; [|apply Qlt_le_weak, pow2_pos].
      rewrite <- (pow2_inject 53) by lia. rewrite <- Zle_Qle.
      rewrite <- (rne_Z (2 ^ 53)). apply rne_mono.
      rewrite (pow2_inject 53) by lia.
      apply Qle_shift_div_r; [apply pow2_pos|].
      rewrite <- pow2_plus.
      destruct (ilog2_spec x Hx) as [_ Hu].
      apply Qlt_le_weak. eapply Qlt_le_trans; [exact Hu|].
      apply pow2_le. unfold ulp_exp. rewrite Qabs_pos_eq by lra. lia.
    + (* 2^(qy+52) <= round y *)
      rewrite (Z.add_comm (ulp_exp y) 52), pow2_plus.
      apply Qmult_le_compat_r; [|apply Qlt_le_weak, pow2_pos].
      rewrite <- (pow2_inject 52) by lia. rewrite <- Zle_Qle.
      rewrite <- (rne_Z (2 ^ 52)) at 1. apply rne_mono.
      rewrite (pow2_inject 52) by lia.
      apply Qle_shift_div_l; [apply pow2_pos|].
      rewrite <- pow2_plus.
      destruct (ilog2_spec y Hy) as [Hl _].
      eapply Qle_trans; [|exact Hl].
      apply pow2_le.
      unfold ulp_exp in *.
      rewrite (Qabs_pos_eq x) in Hlt by lra.
      rewrite (Qabs_pos_eq y) in Hlt |- * by lra. lia.
Qed.

Lemma round_zero (x : Q) : x == 0 -> round x == 0.
Proof.
  intros Hx. rewrite round_correct.
  assert (Hz : x / 2 ^ ulp_exp x == inject_Z 0).
  { unfold Qdiv. transitivity (0 * / 2 ^ ulp_exp x).
    - apply Qmult_comp; [exact Hx | reflexivity].
    - apply Qmult_0_l. }
  assert (H : rne (x / 2 ^ ulp_exp x) = 0%Z).
  { assert (H1 : (rne (x / 2 ^ ulp_exp x) <= rne (inject_Z 0))%Z).
    { apply rne_mono. apply Qle_lteq. right. exact Hz. }
    assert (H2 : (rne (inject_Z 0) <= rne (x / 2 ^ ulp_exp x))%Z).
    { apply rne_mono. apply Qle_lteq. right. symmetry. exact Hz. }
    rewrite rne_Z in H1, H2. lia. }
  rewrite H. apply Qmult_0_l.
Qed.

Lemma round_mono (x y : Q) : 0 <= x -> x <= y -> round x <= round y.
Proof.
  intros Hx Hxy. destruct (Qlt_le_dec 0 x) as [Hpos|Hle].
  - apply round_mono_pos; assumption.
  - rewrite (round_zero x) by lra. apply round_nonneg. lra.
Qed.

Lemma round_1 : round 1 = 1.
Proof. vm_compute. reflexivity. Qed.

Lemma round_5 : round 5 = 5.
Proof. vm_compute. reflexivity. Qed.

Lemma round_range (x c : Q) :
  round c = c -> 0 <= x -> x <= c -> 0 <= round x /\ round x <= c.
Proof.
  intros Hc H0 H1. split; [apply round_nonneg, H0|].
  rewrite <- Hc. apply round_mono; assumption.
Qed.

Lemma of_nat_nonneg (n : nat) : 0 <= of_nat n.
Proof. unfold of_nat. change 0 with (inject_Z 0). rewrite <- Zle_Qle. lia. Qed.

Lemma of_nat_le (k n : nat) : (k <= n)%nat -> of_nat k <= of_nat n.
Proof. intros H. unfold of_nat. rewrite <- Zle_Qle. lia. Qed.

Lemma of_nat_pos (n : nat) : (0 < n)%nat -> 0 < of_nat n.
Proof. intros H. unfold of_nat. change 0 with (inject_Z 0). rewrite <- Zlt_Qlt. lia. Qed.

Lemma div_unit (k n : nat) :
  (k <= n)%nat -> (0 < n)%nat ->
  0 <= div (of_nat k) (of_nat n) /\ div (of_nat k) (of_nat n) <= 1.
Proof.
  intros Hk Hn. unfold div. apply round_range; [exact round_1| |].
  - apply Qle_shift_div_l; [apply of_nat_pos, Hn|].
    rewrite Qmult_0_l. apply of_nat_nonneg.
  - apply Qle_shift_div_r; [apply of_nat_pos, Hn|].
    rewrite Qmult_1_l. apply of_nat_le, Hk.
Qed.

Lemma clamp_unit (y : Q) :
  Qred y = y -> 0 <= y -> y <= 1 -> Qmax 0 (Qmin 1 y) = y.
Proof.
  intros Hy H0 H1.
  assert (Hmin : Qmin 1 y = y).
  { apply canon_eq; [|exact Hy|apply Q.min_r; exact H1].
    unfold Qmin, GenericMinMax.gmin. destruct (Qcompare 1 y); (reflexivity || exact Hy). }
  rewrite Hmin.
  apply canon_eq; [|exact Hy|apply Q.max_r; exact H0].
  unfold Qmax, GenericMinMax.gmax. destruct (Qcompare 0 y); (reflexivity || exact Hy).
Qed.

Lemma toFixed2_range (x : Q) :
  0 <= x -> x <= 5 -> (0 <= toFixed2 x <= 500)%Z.
Proof.
  intros H0 H5. unfold toFixed2.
  assert (E : Qle_bool 0 x = true) by (apply Qle_bool_iff; exact H0).
  rewrite E. split.
  - change 0%Z with (Qfloor 0). apply Qfloor_resp_le. lra.
  - change 500%Z with (Qfloor (1001 # 2)). apply Qfloor_resp_le. lra.
Qed.

Lemma of_decimal2_range (n : Z) :
  (0 <= n <= 500)%Z -> 0 <= of_decimal2 n /\ of_decimal2 n <= 5.
Proof.
  intros [H0 H5]. unfold of_decimal2. apply round_range; [exact round_5| |].
  - apply Qle_shift_div_l; [reflexivity|]. rewrite Qmult_0_l.
    change 0 with (inject_Z 0). rewrite <- Zle_Qle. exact H0.
  - apply Qle_shift_div_r; [reflexivity|].
    change (5 * 100) with (inject_Z 500). rewrite <- Zle_Qle. exact H5.
Qed.

Lemma mul_comm (x y : Q) : mul x y = mul y x.
Proof.
  unfold mul. f_equal. unfold Qmult. f_equal; [apply Z.mul_comm | apply Pos.mul_comm].
Qed.
Lemma rne_error (x : Q) :
  x - (1 # 2) <= inject_Z (rne x) /\ inject_Z (rne x) <= x + (1 # 2).
Proof.
  pose proof (Qfloor_le x) as Hl. pose proof (Qlt_floor x) as Hu.
  rewrite inject_Z_plus in Hu. change (inject_Z 1) with 1 in Hu.
  unfold rne.
  destruct (Qcompare_spec (x - inject_Z (Qfloor x)) (1 # 2)) as [H|H|H].
  - destruct (Z.even (Qfloor x)); [|rewrite inject_Z_plus; change (inject_Z 1) with 1];
      split; lra.
  - split; lra.
  - rewrite inject_Z_plus. change (inject_Z 1) with 1. split; lra.
Qed.

Lemma round_abs_error (x : Q) :
  x - 2 ^ ulp_exp x * (1 # 2) <= round x /\ round x <= x + 2 ^ ulp_exp x * (1 # 2).
Proof.
  rewrite round_correct.
  pose proof (pow2_pos (ulp_exp x)) as Hp.
  destruct (rne_error (x / 2 ^ ulp_exp x)) as [Hl Hu].
  set (p := 2 ^ ulp_exp x) in *.
  assert (Hx : x == x / p * p) by (field; lra).
  set (t := x / p) in *. set (r := inject_Z (rne t)) in *.
  assert (H1 : (t - (1 # 2)) * p <= r * p) by (apply Qmult_le_compat_r; lra).
  assert (H2 : r * p <= (t + (1 # 2)) * p) by (apply Qmult_le_compat_r; lra).
  assert (E1 : (t - (1 # 2)) * p == t * p - p * (1 # 2)) by ring.
  assert (E2 : (t + (1 # 2)) * p == t * p + p * (1 # 2)) by ring.
  split; lra.
Qed.

Lemma ulp_normal (x : Q) : 2 ^ (-1022) <= x -> 2 ^ ulp_exp x <= x * (2 * eps).
Proof.
  intros Hx.
  assert (Hpos : 0 < x).
  { eapply Qlt_le_trans; [|exact Hx]. apply pow2_pos. }
  destruct (ilog2_spec x Hpos) as [Hl Hu].
  assert (He : (-1022 <= ilog2 x)%Z).
  { destruct (Z_le_gt_dec (-1022) (ilog2 x)) as [H|H]; [exact H|].
    exfalso. apply (Qlt_irrefl x).
    eapply Qlt_le_trans; [exact Hu|].
    eapply Qle_trans; [|exact Hx]. apply pow2_le. lia. }
  unfold ulp_exp. rewrite Qabs_pos_eq by lra.
  replace (Z.max (ilog2 x - 52) emin) with (ilog2 x + -52)%Z by (unfold emin; lia).
  rewrite pow2_plus.
  assert (E : 2 ^ (-52) == 2 * eps) by reflexivity. rewrite E.
  apply Qmult_le_compat_r; [exact Hl | unfold eps; lra].
Qed.

Lemma round_rel_error (x : Q) :
  2 ^ (-1022) <= x -> x * (1 - eps) <= round x /\ round x <= x * (1 + eps).
Proof.
  intros Hx. pose proof (ulp_normal x Hx) as Hulp.
  destruct (round_abs_error x) as [Hl Hu]. unfold eps in *. split; lra.
Qed.

Lemma Qfloor_unique (x : Q) (m : Z) :
  inject_Z m <= x -> x < inject_Z m + 1 -> Qfloor x = m.
Proof.
  intros Hl Hu. pose proof (Qfloor_le x) as Fl. pose proof (Qlt_floor x) as Fu.
  rewrite inject_Z_plus in Fu. change (inject_Z 1) with 1 in Fu.
  assert (H1 : inject_Z (Qfloor x) < inject_Z m + 1) by lra.
  assert (H2 : inject_Z m < inject_Z (Qfloor x) + 1) by lra.
  change 1 with (inject_Z 1) in H1, H2. rewrite <- inject_Z_plus in H1, H2.
  rewrite <- Zlt_Qlt in H1, H2. lia.
Qed.

Lemma toFixed2_nonneg_eq (y : Q) (m : Z) :
  0 <= y -> inject_Z m <= y * 100 + (1 # 2) -> y * 100 + (1 # 2) < inject_Z m + 1 ->
  toFixed2 y = m.
Proof.
  intros H0 Hl Hu. unfold toFixed2.
  assert (E : Qle_bool 0 y = true) by (apply Qle_bool_iff; exact H0).
  rewrite E. apply Qfloor_unique; assumption.
Qed.

Lemma rounding_split (k n : Z) :
  (0 < n)%Z ->
  500 * (inject_Z k / inject_Z n) + (1 # 2)
  == inject_Z ((1000 * k + n) / (2 * n))
     + inject_Z ((1000 * k + n) mod (2 * n)) / (2 * inject_Z n).
Proof.
  intros Hn.
  pose proof (Z.div_mod (1000 * k + n) (2 * n) ltac:(lia)) as Hdm.
  set (m := ((1000 * k + n) / (2 * n))%Z) in *.
  set (r := ((1000 * k + n) mod (2 * n))%Z) in *.
  assert (HQ : 1000 * inject_Z k + inject_Z n
               == 2 * inject_Z n * inject_Z m + inject_Z r).
  { change 1000 with (inject_Z 1000). change 2 with (inject_Z 2).
    rewrite <- !inject_Z_mult, <- !inject_Z_plus. rewrite Hdm. reflexivity. }
  assert (Hn' : 0 < inject_Z n) by (change 0 with (inject_Z 0); rewrite <- Zlt_Qlt; lia).
  set (qk := inject_Z k) in *. set (qn := inject_Z n) in *.
  set (qm := inject_Z m) in *. set (qr := inject_Z r) in *.
  assert (Hk : qk == (2 * qn * qm + qr - qn) * (1 # 1000)) by lra.
  rewrite Hk. field. lra.
Qed.

(** Off the ties the two-decimal rounding of the computed double is the
    exact rounding of [5 k / n]. *)
Lemma toFixed2_exact (k n : Z) :
  (0 <= k <= n)%Z -> (1 <= n < 2 ^ 32)%Z ->
  ((1000 * k + n) mod (2 * n) <> 0)%Z ->
  toFixed2 (mul (div (inject_Z k) (inject_Z n)) 5)
  = ((1000 * k + n) / (2 * n))%Z.
Proof.
  intros Hk Hn Hr.
  pose proof (rounding_split k n ltac:(lia)) as HT.
  pose proof (Z.mod_pos_bound (1000 * k + n) (2 * n) ltac:(lia)) as Hrb.
  set (m := ((1000 * k + n) / (2 * n))%Z) in *.
  set (r := ((1000 * k + n) mod (2 * n))%Z) in *.
  assert (Hn0 : 0 < inject_Z n) by (change 0 with (inject_Z 0); rewrite <- Zlt_Qlt; lia).
  assert (Hn32 : inject_Z n <= 4294967295).
  { change 4294967295 with (inject_Z 4294967295). rewrite <- Zle_Qle. lia. }
  assert (Hr1 : 1 <= inject_Z r).
  { change 1 with (inject_Z 1). rewrite <- Zle_Qle. lia. }
  assert (Hr2 : inject_Z r + 1 <= 2 * inject_Z n).
  { change 2 with (inject_Z 2). change 1 with (inject_Z 1).
    rewrite <- inject_Z_mult, <- inject_Z_plus, <- Zle_Qle. lia. }
  assert (Hk0 : 0 <= inject_Z k) by (change 0 with (inject_Z 0); rewrite <- Zle_Qle; lia).
  assert (Hkn : inject_Z k <= inject_Z n) by (rewrite <- Zle_Qle; lia).
  set (qk := inject_Z k) in *. set (qn := inject_Z n) in *. set (qr := inject_Z r) in *.
  set (w := qr / (2 * qn)) in *.
  assert (Hw1 : (1 # 8589934592) <= w).
  { unfold w. apply Qle_shift_div_l; lra. }
  assert (Hw2 : w <= 1 - (1 # 8589934592)).
  { unfold w. apply Qle_shift_div_r; lra. }
  set (X := qk / qn) in *.
  assert (HX0 : 0 <= X) by (unfold X; apply Qle_shift_div_l; lra).
  assert (HX1 : X <= 1) by (unfold X; apply Qle_shift_div_r; lra).
  unfold mul, div. fold X.
  destruct (Z.eq_dec k 0%Z) as [Hz|Hkpos].
  - assert (HXz : X == 0).
    { unfold X, qk. rewrite Hz. change (inject_Z 0) with 0. field. lra. }
    pose proof (round_zero X HXz) as Hy1.
    assert (Hy : round X * 5 == 0) by (rewrite Hy1; ring).
    pose proof (round_zero _ Hy) as Hy2.
    apply toFixed2_nonneg_eq; lra.
  - assert (HXl : (1 # 4294967296) <= X).
    { unfold X. apply Qle_shift_div_l; [lra|].
      assert (1 <= qk) by (unfold qk; change 1 with (inject_Z 1); rewrite <- Zle_Qle; lia).
      lra. }
    assert (Hsmall : 2 ^ (-1022) <= 1 # 8589934592).
    { assert (E : 1 # 8589934592 == 2 ^ (-33)) by reflexivity. rewrite E.
      apply pow2_le. lia. }
    destruct (round_rel_error X ltac:(lra)) as [Hy1l Hy1u].
    unfold eps in *.
    destruct (round_rel_error (round X * 5) ltac:(lra)) as [Hy2l Hy2u].
    unfold eps in *.
    apply toFixed2_nonneg_eq; lra.
Qed.
End DoubleFacts.

Section area_score.
Import Double DoubleFacts.
Local Open Scope Q_scope.

Lemma yesCount_count_yes (a : list Answer) :
  length (List.filter Boolean a) = count_yes a.
Proof.
  unfold count_yes. induction a as [|v a IH]; [reflexivity|].
  destruct v; cbn [List.filter Boolean].
  - rewrite filter_cons_True by reflexivity. cbn [length]. by rewrite IH.
  - by rewrite filter_cons_False by discriminate.
  - by rewrite filter_cons_False by discriminate.
Qed.

Lemma count_yes_le (a : list Answer) : (count_yes a <= length a)%nat.
Proof. unfold count_yes. apply length_filter. Qed.

Lemma total_max (a : list Answer) :
  (if (length a =? 0)%nat then 1%nat else length a) = Nat.max (length a) 1.
Proof. destruct (length a); simpl; lia. Qed.

Lemma calculateAreaScore_exact (a : list Answer) :
  (Z.of_nat (length a) < 2 ^ 32)%Z ->
  ~ halfway (exact_area_score a) ->
  calculateAreaScore a = round2 (exact_area_score a).
Proof.
  intros Hlen Htie.
  set (k := Z.of_nat (count_yes a)). set (n := Z.of_nat (Nat.max (length a) 1)).
  assert (Hk : (0 <= k <= n)%Z) by (pose proof (count_yes_le a); lia).
  assert (Hn : (1 <= n < 2 ^ 32)%Z) by lia.
  pose proof (rounding_split k n ltac:(lia)) as HT.
  pose proof (Z.mod_pos_bound (1000 * k + n) (2 * n) ltac:(lia)) as Hrb.
  assert (Hn0 : 0 < inject_Z n) by (change 0 with (inject_Z 0); rewrite <- Zlt_Qlt; lia).
  assert (Hx : exact_area_score a * 100 + (1 # 2)
               == inject_Z ((1000 * k + n) / (2 * n))
                  + inject_Z ((1000 * k + n) mod (2 * n)) / (2 * inject_Z n)).
  { rewrite <- HT. unfold exact_area_score, of_nat. fold k n. ring. }
  set (m := ((1000 * k + n) / (2 * n))%Z) in *.
  set (r := ((1000 * k + n) mod (2 * n))%Z) in *.
  assert (Hw0 : 0 <= inject_Z r / (2 * inject_Z n)).
  { apply Qle_shift_div_l; [lra|]. rewrite Qmult_0_l.
    change 0 with (inject_Z 0). rewrite <- Zle_Qle. lia. }
  assert (Hw1 : inject_Z r / (2 * inject_Z n) < 1).
  { apply Qlt_shift_div_r; [lra|]. rewrite Qmult_1_l.
    change 2 with (inject_Z 2). rewrite <- inject_Z_mult, <- Zlt_Qlt. lia. }
  assert (Hr : r <> 0%Z).
  { intros Hr0. apply Htie. unfold halfway. rewrite Hr0 in Hx.
    assert (Hx' : exact_area_score a * 100 + (1 # 2) == inject_Z m).
    { rewrite Hx. change (inject_Z 0) with 0. field. lra. }
    rewrite (Qfloor_unique _ m); [by rewrite Hx'| |]; lra. }
  assert (Hexact : toFixed2 (exact_area_score a) = m).
  { apply toFixed2_nonneg_eq; [|lra|lra].
    unfold exact_area_score.
    apply Qmult_le_0_compat; [lra|].
    apply Qle_shift_div_l; [exact Hn0|]. rewrite Qmult_0_l. apply of_nat_nonneg. }
  unfold round2. rewrite Hexact.
  unfold calculateAreaScore.
  rewrite yesCount_count_yes, total_max.
  assert (Hn' : (0 < Nat.max (length a) 1)%nat) by lia.
  assert (Hk' : (count_yes a <= Nat.max (length a) 1)%nat)
    by (pose proof (count_yes_le a); lia).
  destruct (div_unit _ _ Hk' Hn') as [Hd0 Hd1].
  rewrite clamp_unit; [|apply round_canon|exact Hd0|exact Hd1].
  f_equal. apply (toFixed2_exact k n Hk Hn Hr).
Qed.
(** C1: for every sequence of tri-state answers, [calculateAreaScore]
    equals five times the quotient of the number of entries equal to
    [true] by [max(n, 1)], rounded to two decimals (quotient and product
    taken in the program's double arithmetic, the clamp being of no
    effect); it lies between 0 and 5, and it is 0 on the empty sequence.
    For an array (fewer than [2^32] entries) it is also the two-decimal
    rounding of the exact value of that expression, unless the exact
    value lies halfway between two multiples of 0.01. *)
Theorem calculateAreaScore_formula (a : list Answer) :
  calculateAreaScore a = area_score_spec a ∧
  (0 <= calculateAreaScore a ∧ calculateAreaScore a <= 5) ∧
  calculateAreaScore [] = 0 ∧
  ((Z.of_nat (length a) < 2 ^ 32)%Z → ¬ halfway (exact_area_score a) →
   calculateAreaScore a = round2 (exact_area_score a)).
Proof.
  assert (Hn : (0 < Nat.max (length a) 1)%nat) by lia.
  assert (Hk : (count_yes a <= Nat.max (length a) 1)%nat)
    by (pose proof (count_yes_le a); lia).
  destruct (div_unit _ _ Hk Hn) as [Hd0 Hd1].
  assert (E : calculateAreaScore a = area_score_spec a).
  { unfold calculateAreaScore, area_score_spec, round2.
    rewrite yesCount_count_yes, total_max.
    rewrite clamp_unit; [|apply round_canon|exact Hd0|exact Hd1].
    by rewrite mul_comm. }
  split; [exact E|]. split; [|split; [by vm_compute|apply calculateAreaScore_exact]].
  rewrite E. unfold area_score_spec, round2.
  apply of_decimal2_range, toFixed2_range.
  - apply round_nonneg. lra.
  - unfold mul. rewrite <- round_5 at 2. apply round_mono; lra.
Qed.

Lemma calculateAreaScore_formula_witness :
  calculateAreaScore [Yes; No; No] = Double.of_decimal2 167.
Proof.
  destruct (calculateAreaScore_formula [Yes; No; No]) as (_ & _ & _ & Hexact).
  rewrite Hexact.
  - vm_compute. reflexivity.
  - vm_compute. reflexivity.
  - intros Htie. vm_compute in Htie. discriminate Htie.
Defined.

End area_score.

(** ** Domain and overall scores *)

Section aggregate_scores.
Implicit Types (ans : gmap string (list Answer)).

Lemma area_step ans area (sum : Q) (count : nat) :
  (let arr := answers_of ans area in
   if (length arr =? 0) && has_questions area
   then (Double.add sum 0, count + 1)
   else (Double.add sum (calculateAreaScore arr), count + 1))
  = (Double.add sum (area_term ans area), count + 1).
Proof.
  unfold answers_of, area_term.
  destruct (ans !! Area.id area) as [[|v arr]|];
    cbn [default id length Nat.eqb andb];
    by destruct (has_questions area).
Qed.

Lemma calculateDomainScore_loop ans areas (sum : Q) (count : nat) :
  fold_left
    (λ '(sum, count) area,
       let arr := answers_of ans area in
       if (length arr =? 0) && has_questions area
       then (Double.add sum 0, count + 1)
       else (Double.add sum (calculateAreaScore arr), count + 1))
    areas (sum, count)
  = (fold_left Double.add (area_term ans <$> areas) sum, count + length areas).
Proof.
  revert sum count. induction areas as [|area areas IH]; intros sum count.
  - cbn. by rewrite Nat.add_0_r.
  - cbn [fold_left fmap list_fmap length]. rewrite area_step, IH.
    f_equal. lia.
Qed.

Lemma calculateDomainScore_unfold ans areas :
  calculateDomainScore areas ans
  = match areas with
    | [] => 0%Q
    | _ :: _ => rounded_mean (area_term ans <$> areas)
    end.
Proof.
  unfold calculateDomainScore. rewrite calculateDomainScore_loop.
  destruct areas as [|area areas]; [done|].
  cbn [length Nat.eqb Nat.add]. unfold rounded_mean, round2.
  by rewrite length_fmap.
Qed.

Lemma calculateOverallScore_loop ans ds (sum : Q) (count : nat) :
  fold_left
    (λ '(sum, count) domain,
       (Double.add sum (calculateDomainScore (Domain.areas domain) ans),
        count + 1))
    ds (sum, count)
  = (fold_left Double.add
       ((λ domain, calculateDomainScore (Domain.areas domain) ans) <$> ds) sum,
     count + length ds).
Proof.
  revert sum count. induction ds as [|d ds IH]; intros sum count.
  - cbn. by rewrite Nat.add_0_r.
  - cbn [fold_left fmap list_fmap length]. rewrite IH. f_equal. lia.
Qed.
Lemma calculateOverallScore_unfold ans ds :
  calculateOverallScore ds ans
  = match ds with
    | [] => 0%Q
    | _ :: _ =>
        rounded_mean ((λ domain, calculateDomainScore (Domain.areas domain) ans) <$> ds)
    end.
Proof.
  unfold calculateOverallScore. rewrite calculateOverallScore_loop.
  destruct ds as [|d ds]; [done|].
  cbn [length Nat.eqb Nat.add]. unfold rounded_mean, round2.
  by rewrite length_fmap.
Qed.





End aggregate_scores.

(** ** Persistence *)

Section persistence.
Context `{Platform Value}.
Implicit Types (key text : string) (v fallback : Value) (s : gmap string string).

Lemma saveLocal_returns key v s : ∃ s', saveLocal key v s = (inr tt, s').
Proof.
  unfold saveLocal, try_catch, mbind, Storage_bind, lift_result, setItem.
  destruct (JSON_stringify v) as [[]|t]; [by eexists|].
  destruct (write_fails s key (default "undefined" t)); by eexists.
Qed.

Lemma saveLocal_failure key v s :
  JSON_stringify v = inl tt ∨
  (∃ t, JSON_stringify v = inr t ∧ write_fails s key (default "undefined" t) = true) →
  saveLocal key v s = (inr tt, s).
Proof.
  unfold saveLocal, try_catch, mbind, Storage_bind, lift_result, setItem.
  intros [->|(t & -> & ->)]; done.
Qed.

Lemma saveLocal_success key v text s :
  JSON_stringify v = inr (Some text) → write_fails s key text = false →
  saveLocal key v s = (inr tt, <[key := text]> s).
Proof.
  unfold saveLocal, try_catch, mbind, Storage_bind, lift_result, setItem.
  intros -> Hw. cbn. by rewrite Hw.
Qed.

Lemma loadLocal_returns key fallback s : ∃ r, loadLocal key fallback s = (inr r, s).
Proof.
  unfold loadLocal, try_catch, mbind, Storage_bind, lift_result, getItem.
  destruct (read_fails s key); [by eexists|].
  destruct (s !! key) as [[|c text]|]; try by eexists.
  destruct (JSON_parse (String c text)) as [[]|r]; by eexists.
Qed.

Lemma loadLocal_failure key fallback s :
  read_fails s key = true ∨
  (∃ text, s !! key = Some text ∧ JSON_parse text = inl tt) →
  loadLocal key fallback s = (inr fallback, s).
Proof.
  unfold loadLocal, try_catch, mbind, Storage_bind, lift_result, getItem.
  intros [->|(text & Hs & Hp)]; [done|].
  destruct (read_fails s key); [done|]. rewrite Hs.
  destruct text; [done|]. by rewrite Hp.
Qed.

Lemma loadLocal_stored key fallback v text s :
  read_fails s key = false → s !! key = Some text →
  text ≠ EmptyString → JSON_parse text = inr v →
  loadLocal key fallback s = (inr v, s).
Proof.
  unfold loadLocal, try_catch, mbind, Storage_bind, lift_result, getItem.
  intros -> -> Hne Hp. destruct text; [done|]. by rewrite Hp.
Qed.

(** C9: [saveLocal] and [loadLocal] never raise, whatever the browser's
    storage and JSON functions do: a failure while saving leaves the
    storage as it was, a failure while loading yields the fallback.  When
    the value is JSON-serializable and the storage accepts the write and
    the read, [loadLocal] after [saveLocal] returns the saved value. *)
Theorem saveLocal_loadLocal_roundtrip key fallback v s :
  (∃ s', saveLocal key v s = (inr tt, s')) ∧
  (∃ r, loadLocal key fallback s = (inr r, s)) ∧
  (JSON_stringify v = inl tt ∨
   (∃ t, JSON_stringify v = inr t ∧ write_fails s key (default "undefined" t) = true) →
   saveLocal key v s = (inr tt, s)) ∧
  (read_fails s key = true ∨
   (∃ text, s !! key = Some text ∧ JSON_parse text = inl tt) →
   loadLocal key fallback s = (inr fallback, s)) ∧
  (∀ text,
     serializable v text →
     write_fails s key text = false →
     read_fails (saveLocal key v s).2 key = false →
     loadLocal key fallback (saveLocal key v s).2 = (inr v, (saveLocal key v s).2)).
Proof.
  split; [apply saveLocal_returns|]. split; [apply loadLocal_returns|].
  split; [apply saveLocal_failure|]. split; [apply loadLocal_failure|].
  intros text (Hstr & Hne & Hparse) Hw.
  rewrite (saveLocal_success key v text s Hstr Hw); cbn [snd]. intros Hr.
  apply (loadLocal_stored key fallback v text); try done.
  apply lookup_insert_eq.
Qed.
End persistence.

Lemma saveLocal_loadLocal_roundtrip_witness :
  @loadLocal _ Sample.booleans "afs_selection" false
    (@saveLocal _ Sample.booleans "afs_selection" true ∅).2
  = (inr true, {[ "afs_selection" := "true" ]}).
Proof.
  destruct (@saveLocal_loadLocal_roundtrip _ Sample.booleans
              "afs_selection" false true ∅) as (_ & _ & _ & _ & Hround).
  rewrite (Hround "true").
  - vm_compute. reflexivity.
  - repeat split; discriminate || reflexivity.
  - reflexivity.
  - reflexivity.
Defined.

(** With the quota exhausted the save is dropped and the load falls
    back. *)
Example saveLocal_quota_exhausted :
  @loadLocal _ Sample.full "afs_selection" false
    (@saveLocal _ Sample.full "afs_selection" true ∅).2
  = (inr false, ∅).
Proof. vm_compute. reflexivity. Qed.

(** ** The number model against the Standard Library's IEEE-754 *)

Example double_agrees_with_binary64 : agrees_upto 100 = true.
Proof. vm_compute. reflexivity. Qed.

Example decimals_agree_with_binary64 : decimals_agree = true.
Proof. vm_compute. reflexivity. Qed.

Example div_3_200 : SF2Q (binary64_div 3 200) = Double.div 3 200.
Proof. vm_compute. reflexivity. Qed.

(** The two-decimal rounding applies to the double the program computed:
    3 of 200 gives the double just below 0.075 and scores 0.07, while 1 of
    8 gives exactly 0.625 and scores 0.63. *)
Example area_score_3_of_200 :
  calculateAreaScore (replicate 3 Yes ++ replicate 197 No) = Double.of_decimal2 7.
Proof. vm_compute. reflexivity. Qed.

Example area_score_1_of_8 :
  calculateAreaScore (Yes :: replicate 7 No) = Double.of_decimal2 63.
Proof. vm_compute. reflexivity. Qed.

Example area_score_samples :
  calculateAreaScore [Yes] = 5%Q ∧ calculateAreaScore [Yes; No] = (5 # 2)%Q ∧
  calculateAreaScore [No; No] = 0%Q ∧ calculateAreaScore [Yes; Unanswered] = (5 # 2)%Q.
Proof. repeat split; vm_compute; reflexivity. Qed.

(** * Properties of the callers *)

(** ** Editing the selection *)

Section selection_editing.
Implicit Types (st : Selection.t) (dom domSel : DomSel.t) (areas : gmap string bool).

Lemma set_all_fold (c : bool) (keys : list string) areas k :
  fold_left (λ areas a, <[a := c]> areas) keys areas !! k
  = if decide (k ∈ keys) then Some c else areas !! k.
Proof.
  revert areas. induction keys as [|a keys IH]; intros areas; cbn [fold_left].
  - by rewrite decide_False by apply not_elem_of_nil.
  - rewrite IH. destruct (decide (k ∈ keys)) as [Hin|Hnot].
    + by rewrite decide_True by (by right).
    + destruct (decide (a = k)) as [->|Hne].
      * rewrite lookup_insert_eq. by rewrite decide_True by left.
      * rewrite lookup_insert_ne by done.
        rewrite decide_False; [done|]. intros [->|?]%elem_of_cons; done.
Qed.

Lemma set_all_areas (c : bool) areas :
  fold_left (λ areas a, <[a := c]> areas) (map_to_list areas).*1 areas
  = (λ _, c) <$> areas.
Proof.
  apply map_eq; intros k. rewrite set_all_fold, lookup_fmap.
  destruct (areas !! k) as [b|] eqn:E; cbn.
  - rewrite decide_True; [done|].
    apply list_elem_of_fmap. exists (k, b). split; [done|].
    by apply elem_of_map_to_list.
  - rewrite decide_False; [done|].
    intros ([k' b] & -> & Hin%elem_of_map_to_list)%list_elem_of_fmap.
    cbn in E. congruence.
Qed.

Lemma alter_all_fold (f : bool → bool) (keys : list string) areas k :
  NoDup keys →
  fold_left (λ areas a, alter f a areas) keys areas !! k
  = if decide (k ∈ keys) then f <$> areas !! k else areas !! k.
Proof.
  revert areas. induction keys as [|a keys IH]; intros areas Hnd; cbn [fold_left].
  - by rewrite decide_False by apply not_elem_of_nil.
  - apply NoDup_cons in Hnd as [Ha Hnd]. rewrite IH by done.
    destruct (decide (a = k)) as [->|Hne].
    + rewrite decide_False by done. rewrite lookup_alter_eq.
      by rewrite decide_True by left.
    + rewrite lookup_alter_ne by done.
      destruct (decide (k ∈ keys)) as [Hin|Hnot].
      * by rewrite decide_True by (by right).
      * rewrite decide_False; [done|]. intros [->|?]%elem_of_cons; done.
Qed.

Lemma alter_all_areas (f : bool → bool) areas :
  fold_left (λ areas a, alter f a areas) (map_to_list areas).*1 areas
  = f <$> areas.
Proof.
  apply map_eq; intros k.
  rewrite alter_all_fold by apply NoDup_fst_map_to_list.
  rewrite lookup_fmap.
  destruct (areas !! k) as [b|] eqn:E; cbn; [|by case_decide].
  rewrite decide_True; [done|].
  apply list_elem_of_fmap. exists (k, b). split; [done|].
  by apply elem_of_map_to_list.
Qed.

Lemma some_flag_selected (sel : bool) areas :
  existsb (λ flag : bool, flag) (map_to_list areas).*2 = true
  ↔ any_area_selected (DomSel.mk sel areas).
Proof.
  unfold any_area_selected; cbn [DomSel.areas].
  rewrite existsb_exists. split.
  - intros (b & Hin & ->). apply list_elem_of_In in Hin.
    apply list_elem_of_fmap in Hin as ([a b] & Hb & Hin); cbn in Hb; subst b.
    exists a. by apply elem_of_map_to_list.
  - intros (a & Ha). exists true. split; [|done].
    apply list_elem_of_In, list_elem_of_fmap. exists (a, true).
    split; [done|]. by apply elem_of_map_to_list.
Qed.

Lemma any_area_selected_areas dom dom' :
  DomSel.areas dom = DomSel.areas dom' →
  any_area_selected dom ↔ any_area_selected dom'.
Proof. unfold any_area_selected. by intros ->. Qed.


Lemma repair_consistent dom :
  (DomSel.selected dom = false → ¬ any_area_selected dom) →
  DomSel.selected (repair dom) = true ↔ any_area_selected (repair dom).
Proof.
  intros Hfalse. split; [apply repair_selected|].
  intros Hany.
  assert (Hany' : any_area_selected dom).
  { revert Hany. apply any_area_selected_areas. symmetry. apply repair_areas. }
  apply areaCount_pos in Hany' as Hpos.
  unfold repair. destruct (DomSel.selected dom) eqn:Es.
  - destruct (areaCount dom) eqn:Ec; [lia|]. cbn. exact Es.
  - by destruct (Hfalse eq_refl).
Qed.




(** X2.  The earlier area handler, which counts the true flags and
    sets the domain's flag to [areaCount > 0], computes the same state as the
    current one, which uses [some(Boolean)]. *)
Theorem legacy_onAreaChange_same domId areaId checked st :
  legacy_onAreaChange domId areaId checked st = onAreaChange domId areaId checked st.
Proof.
  unfold legacy_onAreaChange, onAreaChange.
  destruct (Selection.domains st !! domId) as [domSel|]; [|done].
  cbn [mbind option_bind]. do 4 f_equal.
  set (areas := <[areaId := checked]> (DomSel.areas domSel)).
  apply eq_true_iff_eq.
  rewrite (some_flag_selected (DomSel.selected domSel)), Nat.ltb_lt.
  apply areaCount_pos.
Qed.


(** X3.  The change handler of a domain checkbox fails when the domain
    has no entry.  Otherwise it replaces that one entry by the checkbox state
    for the domain and for every area flag the entry holds, adding no area
    key; validating the result of a click on a consistent state gives a
    consistent state. *)
Theorem onDomainChange_consistent domId checked st :
  (Selection.domains st !! domId = None →
   onDomainChange domId checked st = None) ∧
  (∀ domSel, Selection.domains st !! domId = Some domSel →
     ∃ st',
       onDomainChange domId checked st = Some st' ∧
       Selection.domains st'
       = <[domId := DomSel.mk checked ((λ _, checked) <$> DomSel.areas domSel)]>
           (Selection.domains st) ∧
       (selection_consistent st → selection_consistent (validateSelection st').2)).
Proof.
  unfold onDomainChange. split; [by intros ->|].
  intros domSel ->; cbn [mbind option_bind]. rewrite set_all_areas.
  eexists. split; [done|]. split; [done|].
  intros Hst. rewrite validateSelection_spec.
  intros k dom; cbn [snd Selection.domains]. rewrite lookup_fmap.
  destruct (decide (domId = k)) as [->|Hne].
  - rewrite lookup_insert_eq; cbn. intros [= <-].
    apply repair_consistent. cbn. intros -> (a & Ha); cbn in Ha.
    rewrite lookup_fmap in Ha. by destruct (DomSel.areas domSel !! a).
  - rewrite lookup_insert_ne by done.
    destruct (Selection.domains st !! k) as [dom0|] eqn:E; [|done].
    cbn. intros [= <-].
    apply repair_consistent.
    intros Hsel Hany. apply (Hst k dom0 E) in Hany. congruence.
Qed.

Lemma total_selected_flags_only st st' :
  (∀ domId, DomSel.areas <$> Selection.domains st !! domId
            = DomSel.areas <$> Selection.domains st' !! domId) →
  0 < total_selected st → 0 < total_selected st'.
Proof.
  intros Hflags (k & dom & Hk & Hany)%total_selected_pos.
  apply total_selected_pos. specialize (Hflags k). rewrite Hk in Hflags.
  destruct (Selection.domains st' !! k) as [dom'|] eqn:E; cbn in Hflags; [|done].
  exists k, dom'. split; [done|]. injection Hflags as Hareas.
  by apply (any_area_selected_areas dom).
Qed.

Lemma validateSelection_flags_only st st' :
  (∀ domId, DomSel.areas <$> Selection.domains st !! domId
            = DomSel.areas <$> Selection.domains st' !! domId) →
  (validateSelection st).1 = (validateSelection st').1.
Proof.
  intros Hflags. rewrite !validateSelection_spec; cbn [fst].
  apply eq_true_iff_eq. rewrite !Nat.ltb_lt.
  split; apply total_selected_flags_only; [done|by symmetry].
Qed.

Lemma same_flags_insert st domId domSel (sel : bool) :
  Selection.domains st !! domId = Some domSel →
  ∀ k, DomSel.areas <$> Selection.domains st !! k
       = DomSel.areas <$>
           <[domId := DomSel.mk sel (DomSel.areas domSel)]> (Selection.domains st) !! k.
Proof.
  intros Hdom k. destruct (decide (domId = k)) as [->|Hne].
  - by rewrite lookup_insert_eq, Hdom.
  - by rewrite lookup_insert_ne.
Qed.


(** X4.  Unticking a domain with the earlier domain handler
    clears the domain's flag only: the area flags stay, so the domains derived
    by [getSelectedDomains] and the verdict of [validateSelection] are the
    same as before the click. *)
Theorem legacy_onDomainChange_untick cfg domId st domSel :
  Selection.domains st !! domId = Some domSel →
  ∃ st',
    legacy_onDomainChange domId false st = Some st' ∧
    Selection.domains st'
    = <[domId := DomSel.mk false (DomSel.areas domSel)]> (Selection.domains st) ∧
    (getSelectedDomains (cfg, st')).1 = (getSelectedDomains (cfg, st)).1 ∧
    (validateSelection st').1 = (validateSelection st).1.
Proof.
  intros Hdom. unfold legacy_onDomainChange. rewrite Hdom; cbn [mbind option_bind].
  rewrite alter_all_areas, map_fmap_id.
  eexists. split; [done|]. split; [done|].
  pose proof (same_flags_insert st domId domSel false Hdom) as Hflags.
  split.
  - rewrite !getSelectedDomains_spec; cbn [fst].
    symmetry. by apply derive_selection_flags_only.
  - symmetry. by apply validateSelection_flags_only.
Qed.




(** X6.  The state left by [validateSelection] is consistent
    (each domain flag true exactly when one of its area flags is) if and only
    if no unticked domain of the input held a ticked area: the function clears
    domain flags and never sets one. *)
Theorem validateSelection_consistent_iff st :
  selection_consistent (validateSelection st).2 ↔
  (∀ domId dom, Selection.domains st !! domId = Some dom →
     DomSel.selected dom = false → ¬ any_area_selected dom).
Proof.
  rewrite validateSelection_spec; cbn [snd]. split.
  - intros Hcons k dom Hk Hsel Hany.
    assert (Hrep : repair dom = dom).
    { unfold repair. by rewrite Hsel. }
    specialize (Hcons k dom); cbn [Selection.domains] in Hcons.
    rewrite lookup_fmap, Hk in Hcons; cbn in Hcons. rewrite Hrep in Hcons.
    apply Hcons in Hany; [congruence|done].
  - intros Hpre k dom; cbn [Selection.domains]. rewrite lookup_fmap.
    destruct (Selection.domains st !! k) as [dom0|] eqn:E; [|done].
    cbn. intros [= <-]. apply repair_consistent. by apply (Hpre k).
Qed.

End selection_editing.


Lemma onDomainChange_consistent_witness :
  ∃ st', onDomainChange "d1" false Visit.first_domain = Some st' ∧
         Selection.domains st' !! "d1"
         = Some (DomSel.mk false {[ "A" := false; "B" := false ]}).
Proof.
  destruct (onDomainChange_consistent "d1" false Visit.first_domain) as [_ H].
  destruct (H (DomSel.mk true {[ "A" := true; "B" := true ]}))
    as (st' & Heq & Hdom & _); [vm_compute; reflexivity|].
  exists st'. split; [exact Heq|]. rewrite Hdom. vm_compute. reflexivity.
Defined.

Lemma legacy_onDomainChange_untick_witness :
  ∃ st', legacy_onDomainChange "d1" false Visit.first_domain = Some st' ∧
         (getSelectedDomains (Sample.config, st')).1 = [Sample.dom1].
Proof.
  destruct (legacy_onDomainChange_untick Sample.config "d1" Visit.first_domain
              (DomSel.mk true {[ "A" := true; "B" := true ]}))
    as (st' & Heq & _ & Hsel & _); [vm_compute; reflexivity|].
  exists st'. split; [exact Heq|]. rewrite Hsel. vm_compute. reflexivity.
Defined.



(** ** Select all and deselect all *)

Section bulk_selection.
Implicit Types (d : Domain.t) (m : gmap string DomSel.t) (flags : gmap string bool).
















End bulk_selection.


(** ** Counters *)

Section counters.
Implicit Types (st : Selection.t) (d : Domain.t) (domSel : DomSel.t).

Local Abbreviation add_questions :=
  (λ (acc : option nat) (ar : Area.t), s ← acc; n ← questions_length ar; Some (s + n)).







Local Abbreviation count_domain st :=
  (λ (acc : option (nat * nat * nat)) (domain : Domain.t),
     '(selectedDomainsCount, selectedAreasCount, totalQuestionsCount) ← acc;
     match Selection.domains st !! Domain.id domain with
     | None => Some (selectedDomainsCount, selectedAreasCount, totalQuestionsCount)
     | Some domSel =>
         let selectedDomainsCount :=
           if DomSel.selected domSel then selectedDomainsCount + 1
           else selectedDomainsCount in
         fold_left
           (λ acc area,
              '(d, selectedAreasCount, totalQuestionsCount) ← acc;
              if decide (area_flag domSel area)
              then n ← questions_length area;
                   Some (d, selectedAreasCount + 1, totalQuestionsCount + n)
              else Some (d, selectedAreasCount, totalQuestionsCount))
           (Domain.areas domain)
           (Some (selectedDomainsCount, selectedAreasCount, totalQuestionsCount))
     end).








End counters.


(** ** More facts on the rounding *)

Module ScoreFacts.
Import Double DoubleFacts.
Local Open Scope Q_scope.

Lemma round_eq (x y : Q) : 0 <= x -> x == y -> round x = round y.
Proof.
  intros Hx Hxy. apply canon_eq; [apply round_canon | apply round_canon |].
  apply Qle_antisym; apply round_mono; lra.
Qed.

Lemma round_0 : round 0 = 0.
Proof. vm_compute. reflexivity. Qed.

Lemma round_zero_eq (x : Q) : x == 0 -> round x = 0.
Proof. intros Hx. rewrite <- round_0. apply round_eq; lra. Qed.




Lemma toFixed2_mono (x y : Q) : 0 <= x -> x <= y -> (toFixed2 x <= toFixed2 y)%Z.
Proof.
  intros Hx Hxy. unfold toFixed2.
  assert (Ex : Qle_bool 0 x = true) by (apply Qle_bool_iff; lra).
  assert (Ey : Qle_bool 0 y = true) by (apply Qle_bool_iff; lra).
  rewrite Ex, Ey. apply Qfloor_resp_le. lra.
Qed.

Lemma toFixed2_nonneg (x : Q) : 0 <= x -> (0 <= toFixed2 x)%Z.
Proof.
  intros Hx. unfold toFixed2.
  assert (Ex : Qle_bool 0 x = true) by (apply Qle_bool_iff; lra).
  rewrite Ex. change 0%Z with (Qfloor 0). apply Qfloor_resp_le. lra.
Qed.

Lemma of_decimal2_mono (n m : Z) :
  (0 <= n <= m)%Z -> of_decimal2 n <= of_decimal2 m.
Proof.
  intros [H0 Hnm]. unfold of_decimal2. apply round_mono.
  - apply Qle_shift_div_l; [reflexivity|]. rewrite Qmult_0_l.
    change 0 with (inject_Z 0). rewrite <- Zle_Qle. exact H0.
  - apply Qmult_le_compat_r; [|discriminate]. rewrite <- Zle_Qle. exact Hnm.
Qed.

Lemma round2_mono (x y : Q) : 0 <= x -> x <= y -> round2 x <= round2 y.
Proof.
  intros Hx Hxy. unfold round2. apply of_decimal2_mono. split.
  - by apply toFixed2_nonneg.
  - by apply toFixed2_mono.
Qed.



End ScoreFacts.

(** ** Bounds and monotonicity of the scores *)

Section score_bounds.
Import Double DoubleFacts ScoreFacts.
Local Open Scope Q_scope.

Lemma calculateAreaScore_unclamped (a : list Answer) :
  calculateAreaScore a = area_score_spec a.
Proof.
  assert (Hn : (0 < Nat.max (length a) 1)%nat) by lia.
  assert (Hk : (count_yes a <= Nat.max (length a) 1)%nat)
    by (pose proof (count_yes_le a); lia).
  destruct (div_unit _ _ Hk Hn) as [Hd0 Hd1].
  unfold calculateAreaScore, area_score_spec, round2.
  rewrite yesCount_count_yes, total_max.
  rewrite clamp_unit; [|apply round_canon|exact Hd0|exact Hd1].
  by rewrite mul_comm.
Qed.


Lemma calculateAreaScore_no_yes (a : list Answer) :
  count_yes a = 0%nat → calculateAreaScore a = 0.
Proof.
  rewrite calculateAreaScore_unclamped. unfold area_score_spec. intros ->.
  assert (E : div (of_nat 0) (of_nat (Nat.max (length a) 1)) = 0).
  { unfold div. apply round_zero_eq. unfold Qdiv. apply Qmult_0_l. }
  rewrite E. by vm_compute.
Qed.

Lemma calculateAreaScore_all_yes (a : list Answer) :
  a ≠ [] → count_yes a = length a → calculateAreaScore a = 5.
Proof.
  rewrite calculateAreaScore_unclamped. unfold area_score_spec. intros Hne ->.
  assert (Hlen : Nat.max (length a) 1 = length a).
  { destruct a; [done|]. cbn [length]. lia. }
  rewrite Hlen.
  assert (Hpos : 0 < of_nat (length a)).
  { apply of_nat_pos. destruct a; [done|]. cbn [length]. lia. }
  assert (E : div (of_nat (length a)) (of_nat (length a)) = 1).
  { unfold div. rewrite <- round_1. apply round_eq.
    - apply Qle_shift_div_l; lra.
    - field. lra. }
  rewrite E. by vm_compute.
Qed.


(** X12.  An answer list without a yes scores 0, and a non-empty list
    of yes answers scores 5, for every length. *)
Theorem calculateAreaScore_extremes (a : list Answer) :
  (count_yes a = 0%nat → calculateAreaScore a = 0) ∧
  (a ≠ [] → count_yes a = length a → calculateAreaScore a = 5).
Proof.
  split; [apply calculateAreaScore_no_yes | apply calculateAreaScore_all_yes].
Qed.

Lemma calculateAreaScore_mono (a b : list Answer) :
  length a = length b → (count_yes a <= count_yes b)%nat →
  calculateAreaScore a <= calculateAreaScore b.
Proof.
  intros Hlen Hcount. rewrite !calculateAreaScore_unclamped.
  unfold area_score_spec. rewrite Hlen.
  set (n := Nat.max (length b) 1).
  assert (Hn : 0 < of_nat n) by (apply of_nat_pos; lia).
  pose proof (of_nat_nonneg (count_yes a)) as Ha.
  pose proof (of_nat_le _ _ Hcount) as Hab.
  assert (Hq0 : 0 <= of_nat (count_yes a) / of_nat n).
  { apply Qle_shift_div_l; lra. }
  assert (Hq : of_nat (count_yes a) / of_nat n <= of_nat (count_yes b) / of_nat n).
  { apply Qmult_le_compat_r; [exact Hab|].
    apply Qlt_le_weak, Qinv_lt_0_compat, Hn. }
  pose proof (round_nonneg _ Hq0) as Hd0.
  pose proof (round_mono _ _ Hq0 Hq) as Hd.
  apply round2_mono.
  - apply round_nonneg. unfold div. lra.
  - unfold mul, div. apply round_mono; lra.
Qed.


(** X13.  Between two answer lists of the same length, the one with
    at least as many yes answers scores at least as much. *)
Theorem calculateAreaScore_monotone (a b : list Answer) :
  length a = length b → (count_yes a <= count_yes b)%nat →
  calculateAreaScore a <= calculateAreaScore b.
Proof. apply calculateAreaScore_mono. Qed.







Lemma area_term_no_yes ans area :
  count_yes (answers_of ans area) = 0%nat → area_term ans area = 0.
Proof.
  unfold area_term, answers_of.
  destruct (ans !! Area.id area) as [[|v arr]|]; cbn [default];
    intros Hc; try (by apply calculateAreaScore_no_yes);
    destruct (has_questions area); by vm_compute.
Qed.








End score_bounds.

Lemma calculateAreaScore_extremes_witness :
  calculateAreaScore [No; Unanswered] = 0%Q ∧ calculateAreaScore [Yes; Yes; Yes] = 5%Q.
Proof.
  split.
  - by apply (calculateAreaScore_extremes [No; Unanswered]).
  - by apply (calculateAreaScore_extremes [Yes; Yes; Yes]).
Defined.

Lemma calculateAreaScore_monotone_witness :
  (calculateAreaScore [Yes; No; Unanswered] <= calculateAreaScore [Yes; Yes; Unanswered])%Q.
Proof.
  apply calculateAreaScore_monotone; [reflexivity|]. vm_compute. lia.
Defined.





(** ** The question runner *)

Section runner.
Implicit Types (ans : gmap string (list Answer)) (area : Area.t).

Lemma for_each_rel {S A} (R : S → S → Prop) (xs : list A) (body : A → Eff S unit) :
  (∀ s, R s s) → (∀ a b c, R a b → R b c → R a c) →
  (∀ x s, x ∈ xs → R s (body x s).2) →
  ∀ s, R s (for_each xs body s).2.
Proof.
  intros Hrefl Htrans.
  induction xs as [|x xs IH]; intros Hbody s; [apply Hrefl|].
  cbn [for_each]. unfold mbind, Eff_bind.
  pose proof (Hbody x s ltac:(left)) as Hx.
  destruct (body x s) as [[[]|[]] s1]; cbn [snd] in *; [done|].
  eapply Htrans; [exact Hx|]. apply IH. intros y s' Hy. apply Hbody. by right.
Qed.




Lemma extends_with_refl P ans : extends_with P ans ans.
Proof. intros k. by left. Qed.

Lemma extends_with_trans P (a b c : gmap string (list Answer)) :
  extends_with P a b → extends_with P b c → extends_with P a c.
Proof.
  intros Hab Hbc k.
  destruct (Hbc k) as [Hk|[Hk (arr & Harr & HP)]],
           (Hab k) as [Hk'|[Hk' (arr' & Harr' & HP')]].
  - left. congruence.
  - right. split; [done|]. exists arr'. split; [congruence|done].
  - right. split; [congruence|]. by exists arr.
  - congruence.
Qed.

Lemma extends_with_mono (P P' : string → list Answer → Prop) ans ans' :
  (∀ k arr, P k arr → P' k arr) → extends_with P ans ans' → extends_with P' ans ans'.
Proof.
  intros HP H k. destruct (H k) as [Hk|[Hk (arr & Harr & Hp)]]; [by left|].
  right. split; [done|]. exists arr. split; [done|]. by apply HP.
Qed.

Lemma initArea_cases area ans :
  match Area.questions area with
  | None => (initArea area ans).1 = inl tt ∧ (initArea area ans).2 = ans
  | Some qs =>
      (initArea area ans).1 = inr tt ∧
      (initArea area ans).2
      = match ans !! Area.id area with
        | Some _ => ans
        | None => <[Area.id area := replicate (length qs) Unanswered]> ans
        end
  end.
Proof.
  unfold initArea, mbind, Eff_bind, read, write, raise, mret, Eff_ret, questions_length.
  destruct (Area.questions area) as [qs|], (ans !! Area.id area) as [arr|]; done.
Qed.

Lemma for_each_app {S A} (xs ys : list A) (body : A → Eff S unit) s :
  for_each (xs ++ ys) body s
  = match for_each xs body s with
    | (inr _, s') => for_each ys body s'
    | (inl e, s') => (inl e, s')
    end.
Proof.
  revert s. induction xs as [|x xs IH]; intros s; [done|].
  cbn [app for_each]. unfold mbind, Eff_bind.
  destruct (body x s) as [[[]|[]] s1]; [done|]. apply IH.
Qed.

Lemma for_each_nested {S A B} (xs : list A) (f : A → list B)
    (body : B → Eff S unit) s :
  for_each xs (λ x, for_each (f x) body) s = for_each (xs ≫= f) body s.
Proof.
  revert s. induction xs as [|x xs IH]; intros s; [done|].
  rewrite bind_cons, for_each_app. cbn [for_each]. unfold mbind at 1, Eff_bind.
  destruct (for_each (f x) body s) as [[[]|[]] s1]; [done|]. apply IH.
Qed.

Lemma initAnswers_flat selectedDomains ans :
  initAnswers selectedDomains ans
  = for_each (selectedDomains ≫= Domain.areas) initArea ans.
Proof. unfold initAnswers. apply for_each_nested. Qed.

Lemma initArea_extends selectedDomains area ans :
  area ∈ selectedDomains ≫= Domain.areas →
  extends_with (blank_for selectedDomains) ans (initArea area ans).2.
Proof.
  intros (d & Ha & Hd)%list_elem_of_bind.
  pose proof (initArea_cases area ans) as Hc.
  destruct (Area.questions area) as [qs|] eqn:Eq.
  - destruct Hc as [_ ->].
    destruct (ans !! Area.id area) as [arr|] eqn:E; [apply extends_with_refl|].
    intros k. destruct (decide (Area.id area = k)) as [<-|Hne].
    + right. split; [done|]. eexists. split; [apply lookup_insert_eq|].
      by exists d, area, qs.
    + left. by rewrite lookup_insert_ne.
  - destruct Hc as [_ ->]. apply extends_with_refl.
Qed.



Lemma blank_no_yes (n : nat) : count_yes (replicate n Unanswered) = 0.
Proof.
  unfold count_yes. induction n as [|n IH]; [done|].
  cbn [replicate]. by rewrite filter_cons_False.
Qed.

Lemma blank_not_answered (n : nat) :
  length (List.filter answered (replicate n Unanswered)) = 0.
Proof. induction n as [|n IH]; [done|]. exact IH. Qed.

Lemma area_term_extends ans ans' area :
  extends_with (λ _ arr, count_yes arr = 0) ans ans' →
  area_term ans' area = area_term ans area.
Proof.
  intros Hext. destruct (Hext (Area.id area)) as [Hk|[Hk (arr & Harr & Hc)]].
  - unfold area_term. by rewrite Hk.
  - rewrite (area_term_no_yes ans'), (area_term_no_yes ans); [done| |].
    + unfold answers_of. by rewrite Hk.
    + unfold answers_of. by rewrite Harr.
Qed.

Lemma countAnswered_sum ans :
  countAnswered ans
  = sum_list_with (λ arr, length (List.filter answered arr)) (map_to_list ans).*2.
Proof.
  unfold countAnswered.
  assert (H : ∀ l (a0 : nat),
    fold_left (λ a arr, a + length (List.filter answered arr)) l a0
    = a0 + sum_list_with (λ arr, length (List.filter answered arr)) l).
  { induction l as [|x l IH]; intros a0; cbn; [lia|]. rewrite IH. lia. }
  apply (H _ 0).
Qed.

Lemma countAnswered_insert ans k arr :
  ans !! k = None →
  countAnswered (<[k := arr]> ans)
  = length (List.filter answered arr) + countAnswered ans.
Proof.
  intros Hk. rewrite !countAnswered_sum.
  by rewrite (map_to_list_insert ans k arr Hk).
Qed.



(** X19.  The arrays created on the first visit of the runner change
    neither a domain score, nor the overall score, nor the number of answered
    questions, also when the loop raises half-way. *)
Theorem initAnswers_keeps_scores selectedDomains ans :
  (∀ areas, calculateDomainScore areas (initAnswers selectedDomains ans).2
            = calculateDomainScore areas ans) ∧
  (∀ ds, calculateOverallScore ds (initAnswers selectedDomains ans).2
         = calculateOverallScore ds ans) ∧
  countAnswered (initAnswers selectedDomains ans).2 = countAnswered ans.
Proof.
  assert (Hext : extends_with (λ _ arr, count_yes arr = 0) ans
                   (initAnswers selectedDomains ans).2).
  { rewrite initAnswers_flat.
    apply (for_each_rel (extends_with (λ _ arr, count_yes arr = 0)));
      [apply extends_with_refl | apply extends_with_trans |].
    intros area s Ha.
    eapply extends_with_mono; [|by apply initArea_extends].
    intros k arr (_ & _ & qs & _ & _ & _ & _ & ->). apply blank_no_yes. }
  assert (Hdom : ∀ areas,
    calculateDomainScore areas (initAnswers selectedDomains ans).2
    = calculateDomainScore areas ans).
  { intros areas. rewrite !calculateDomainScore_unfold.
    destruct areas as [|a areas]; [done|]. f_equal.
    apply list_fmap_ext. intros _ area _. by apply area_term_extends. }
  split; [exact Hdom|]. split.
  - intros ds. rewrite !calculateOverallScore_unfold.
    destruct ds as [|d ds]; [done|]. f_equal.
    apply list_fmap_ext. intros _ d' _. apply Hdom.
  - rewrite initAnswers_flat.
    apply (for_each_rel (λ s s' : gmap string (list Answer),
                           countAnswered s' = countAnswered s));
      [done | intros a b c; congruence |].
    intros area s _. pose proof (initArea_cases area s) as Hc.
    destruct (Area.questions area) as [qs|]; destruct Hc as [_ ->]; [|done].
    destruct (s !! Area.id area) as [arr|] eqn:E; [done|].
    by rewrite countAnswered_insert, blank_not_answered.
Qed.

Lemma count_yes_cons (v : Answer) (arr : list Answer) :
  count_yes (v :: arr) = ((if decide (v = Yes) then 1 else 0) + count_yes arr)%nat.
Proof.
  unfold count_yes. destruct (decide (v = Yes)).
  - by rewrite filter_cons_True.
  - by rewrite filter_cons_False.
Qed.

Lemma count_yes_insert (arr : list Answer) (idx : nat) (v old : Answer) :
  arr !! idx = Some old →
  (count_yes (<[idx := v]> arr) + (if decide (old = Yes) then 1 else 0)
   = count_yes arr + (if decide (v = Yes) then 1 else 0))%nat.
Proof.
  revert idx. induction arr as [|x arr IH]; intros [|idx] Hold; try done.
  - cbn in Hold. injection Hold as ->.
    change (<[0 := v]> (old :: arr)) with (v :: arr).
    rewrite !count_yes_cons. lia.
  - cbn in Hold. change (<[S idx := v]> (x :: arr)) with (x :: <[idx := v]> arr).
    rewrite !count_yes_cons. specialize (IH idx Hold). lia.
Qed.





(** X21.  Answering a question of the array with yes never lowers the
    area's score, and answering it with no never raises it. *)
Theorem recordAnswer_score areaId idx val ans arr :
  ans !! areaId = Some arr → idx < length arr →
  ∃ arr',
    recordAnswer areaId idx val ans = Some (<[areaId := arr']> ans) ∧
    (val = true → (calculateAreaScore arr <= calculateAreaScore arr')%Q) ∧
    (val = false → (calculateAreaScore arr' <= calculateAreaScore arr)%Q).
Proof.
  intros Harr Hidx. unfold recordAnswer. rewrite Harr; cbn [mbind option_bind].
  eexists. split; [done|]. unfold set_index.
  apply Nat.ltb_lt in Hidx as Hlt. rewrite Hlt.
  destruct (lookup_lt_is_Some_2 arr idx Hidx) as [old Hold].
  split; intros ->.
  - apply calculateAreaScore_mono; [by rewrite length_insert|].
    pose proof (count_yes_insert arr idx Yes old Hold) as Hc.
    revert Hc. repeat case_decide; try done; lia.
  - apply calculateAreaScore_mono; [by rewrite length_insert|].
    pose proof (count_yes_insert arr idx No old Hold) as Hc.
    revert Hc. repeat case_decide; try done; lia.
Qed.


End runner.



Lemma recordAnswer_score_witness :
  ∃ arr', recordAnswer "A" 1 true Visit.started = Some (<[ "A" := arr' ]> Visit.started) ∧
          (calculateAreaScore [Yes; Unanswered] <= calculateAreaScore arr')%Q.
Proof.
  destruct (recordAnswer_score "A" 1 true Visit.started [Yes; Unanswered])
    as (arr' & Heq & Hyes & _); [vm_compute; reflexivity|cbn; lia|].
  exists arr'. split; [exact Heq|]. by apply Hyes.
Defined.


(** ** The submission payload *)

Section payload.
Implicit Types (ans : gmap string (list Answer)) (ds : list Domain.t).





End payload.

(** ** The report *)

Section report.
Import Double DoubleFacts ScoreFacts.

Lemma percent_check_ok : percent_check = true.
Proof. vm_compute. reflexivity. Qed.

Lemma scorePercent_decimal (d : Z) :
  (0 <= d <= 500)%Z →
  scorePercent (of_decimal2 d) = ((2 * d + 5) / 10)%Z.
Proof.
  intros Hd. pose proof percent_check_ok as H. unfold percent_check in H.
  rewrite forallb_forall in H.
  specialize (H (Z.to_nat d)). rewrite Z2Nat.id in H by lia.
  apply Z.eqb_eq, H. apply in_seq. lia.
Qed.

Lemma calculateAreaScore_decimal (a : list Answer) :
  ∃ d, (0 <= d <= 500)%Z ∧ calculateAreaScore a = of_decimal2 d.
Proof.
  rewrite calculateAreaScore_unclamped. unfold area_score_spec, round2.
  eexists. split; [|done].
  assert (Hn : (0 < Nat.max (length a) 1)%nat) by lia.
  assert (Hk : (count_yes a <= Nat.max (length a) 1)%nat)
    by (pose proof (count_yes_le a); lia).
  destruct (div_unit _ _ Hk Hn) as [Hd0 Hd1].
  apply toFixed2_range.
  - apply round_nonneg. lra.
  - unfold mul. apply (round_range _ 5 round_5); lra.
Qed.


(** X24.  The score of an area is a number of hundredths d between 0 and 500,
    the percentage of its bar is (2 d + 5) div 10, which lies between 0 and
    100, and the bar is green from 3.48, yellow from 1.98 and red below. *)
Theorem report_bar (a : list Answer) :
  ∃ d, (0 <= d <= 500)%Z ∧
       calculateAreaScore a = of_decimal2 d ∧
       scorePercent (calculateAreaScore a) = ((2 * d + 5) / 10)%Z ∧
       (0 <= scorePercent (calculateAreaScore a) <= 100)%Z ∧
       barColor (scorePercent (calculateAreaScore a))
       = if (348 <=? d)%Z then Green else if (198 <=? d)%Z then Yellow else Red.
Proof.
  destruct (calculateAreaScore_decimal a) as (d & Hd & ->).
  exists d. split; [done|]. split; [done|].
  rewrite scorePercent_decimal by done. split; [done|].
  unfold barColor.
  assert (Hdiv : (10 * ((2 * d + 5) / 10) <= 2 * d + 5 < 10 * ((2 * d + 5) / 10) + 10)%Z).
  { pose proof (Z.div_mod (2 * d + 5) 10 ltac:(lia)).
    pose proof (Z.mod_pos_bound (2 * d + 5) 10 ltac:(lia)). lia. }
  set (p := ((2 * d + 5) / 10)%Z) in *.
  split; [lia|].
  destruct (348 <=? d)%Z eqn:E1, (198 <=? d)%Z eqn:E2, (70 <=? p)%Z eqn:E3,
    (40 <=? p)%Z eqn:E4; try done; exfalso;
    rewrite ?Z.leb_le, ?Z.leb_gt in *; lia.
Qed.
End report.

(** ** Persistence: what is left untouched *)

Section persistence_frame.
Context `{Platform Value}.
Implicit Types (key text : string) (v fallback : Value) (s : gmap string string).


(** X25.  [saveLocal] changes no key of the storage other than its
    own, and either leaves the storage as it was or stores the serialization
    of the value under its key. *)
Theorem saveLocal_other_keys key v s :
  (∀ k, k ≠ key → (saveLocal key v s).2 !! k = s !! k) ∧
  ((saveLocal key v s).2 = s ∨
   ∃ t, JSON_stringify v = inr t ∧
        (saveLocal key v s).2 = <[key := default "undefined" t]> s).
Proof.
  unfold saveLocal, try_catch, mbind, Storage_bind, lift_result, setItem.
  destruct (JSON_stringify v) as [[]|t]; cbn [snd]; [by split; [|left]|].
  destruct (write_fails s key (default "undefined" t)); cbn [snd].
  - by split; [|left].
  - split; [intros k Hk; by rewrite lookup_insert_ne|]. right. by exists t.
Qed.


(** X26.  [loadLocal] returns the fallback, and leaves the storage as it
    is, when the key is absent or holds the empty string. *)
Theorem loadLocal_absent key fallback s :
  (s !! key = None ∨ s !! key = Some EmptyString) →
  loadLocal key fallback s = (inr fallback, s).
Proof.
  unfold loadLocal, try_catch, mbind, Storage_bind, lift_result, getItem.
  intros [->| ->]; by destruct (read_fails s key).
Qed.

End persistence_frame.

Lemma loadLocal_absent_witness :
  @loadLocal _ Sample.booleans "afs_answers" true ∅ = (inr true, ∅).
Proof. apply (@loadLocal_absent _ Sample.booleans). left. vm_compute. reflexivity. Defined.
